(** * Subcodex: stall detection and auto-recovery engine (src/index.ts)

    A shallow embedding of the event-processing engine of the Subcodex MCP
    server: [determineResultLevel], [processEventsWithStallDetection],
    [attemptRecovery], [runWithStallRecovery] and the [run] / [reply]
    branches of the tool-call handler.

    Modelling conventions.
    - A JS [string] is a [string]; [string | null] is [option string]; a JS
      [number] that the code only counts with is a [Z].
    - The progress log is an append-only sequence of [log_line] values, one
      constructor per [writeProgress] call site (timestamps are dropped).
    - An [async] function either resolves with a value or rejects with a
      message; on top of that it appends to the log.  This is the monad [M].
    - What [await Promise.race([iterator.next(), timeoutPromise])] settles to
      is decided by the environment; an event source is therefore given as
      the list of the settlements of its successive [next()] calls.
    - The Codex SDK is a record of what its streaming calls settle to.
    - Failures of the file system under [writeProgress] and the naming of
      the log file are left out; the tools are modelled from their [try]
      block on. *)

From Stdlib Require Import String Ascii List ZArith Bool Lia.
From Stdlib Require Import DecimalString Permutation.
Import ListNotations.
Local Open Scope string_scope.
Local Open Scope list_scope.
Local Open Scope Z_scope.

(* ================================================================== *)
(** ** JavaScript primitives used by the engine *)

Module JS.

(** [hay.includes(needle)] *)
Fixpoint includes (needle hay : string) : bool :=
  if String.prefix needle hay then true
  else match hay with
       | EmptyString => false
       | String _ rest => includes needle rest
       end.

(** Truthiness of a [string | null | undefined] value: [null],
    [undefined] and the empty string are falsy. *)
Definition truthy (v : option string) : bool :=
  match v with
  | None => false
  | Some s => negb (String.eqb s "")
  end.

(** [a || b] on [string | null] operands. *)
Definition or_else (a b : option string) : option string :=
  if truthy a then a else b.

(** [a || "literal"] where the right operand is a string. *)
Definition or_default (a : option string) (d : string) : string :=
  match a with
  | Some s => if String.eqb s "" then d else s
  | None => d
  end.

(** [errorMessage?.includes(needle)], used as a condition. *)
Definition opt_includes (needle : string) (v : option string) : bool :=
  match v with
  | None => false
  | Some s => includes needle s
  end.

End JS.

(* ================================================================== *)
(** ** Data model *)

(** [ThreadItem] of the Codex SDK: a union discriminated by [type]. *)
Inductive ThreadItem : Type :=
| AgentMessage (text : string)
| Reasoning (text : string)
| CommandExecution (command status : string) (exit_code : option Z)
| FileChange (changes : list (string * string)) (status : string)
| McpToolCall (server tool status : string)
| WebSearch (query : string)
| TodoList (items : list string)
| ErrorItem (message : string).

(** The [type] field. *)
Definition item_type (i : ThreadItem) : string :=
  match i with
  | AgentMessage _ => "agent_message"
  | Reasoning _ => "reasoning"
  | CommandExecution _ _ _ => "command_execution"
  | FileChange _ _ => "file_change"
  | McpToolCall _ _ _ => "mcp_tool_call"
  | WebSearch _ => "web_search"
  | TodoList _ => "todo_list"
  | ErrorItem _ => "error"
  end.

(** [i.type === "file_change" && i.status === "failed"] *)
Definition is_failed_file_change (i : ThreadItem) : bool :=
  match i with
  | FileChange _ status => String.eqb status "failed"
  | _ => false
  end.

(** [ThreadEvent] of the Codex SDK. *)
Inductive ThreadEvent : Type :=
| ThreadStarted (thread_id : string)
| TurnStarted
| ItemStarted (item : ThreadItem)
| ItemUpdated (item : ThreadItem)
| ItemCompleted (item : ThreadItem)
| TurnCompleted (input_tokens output_tokens : Z)
| TurnFailed (message : string)
| ErrorEvent (message : string).

Record Usage : Type := mkUsage
  { input_tokens : Z;
    output_tokens : Z }.

Record RecoveryInfo : Type := mkRecoveryInfo
  { attempted : bool;
    attempts : Z;
    recovered : bool;
    lastError : option string }.

Record EventProcessingResult : Type := mkResult
  { items : list ThreadItem;
    threadId : option string;
    finalResponse : string;
    usage : option Usage;
    stalled : bool;
    error : option string }.

Inductive ResultLevel : Type := PASS | FAIL | ERROR | TIMEOUT.

(* ================================================================== *)
(** ** Outcome evaluator *)

Definition determineResultLevel
  (its : list ThreadItem) (hasError : bool) (errorMessage : option string)
  : ResultLevel :=
  if hasError then
    if JS.opt_includes "timeout" errorMessage
       || JS.opt_includes "aborted" errorMessage
    then TIMEOUT
    else ERROR
  else
    let hasAgentMessage :=
      existsb (fun i => String.eqb (item_type i) "agent_message") its in
    if hasAgentMessage then PASS
    else
      let errorItems :=
        filter (fun i => String.eqb (item_type i) "error") its in
      let failedFileChanges := filter is_failed_file_change its in
      if (0 <? Z.of_nat (length errorItems))
         || (0 <? Z.of_nat (length failedFileChanges))
      then FAIL
      else PASS.

(* ================================================================== *)
(** ** Progress log and the monad of async functions *)

(** One constructor per [writeProgress] message of the engine. *)
Inductive log_line : Type :=
| LogThreadStarted (id : string)
| LogTurnStarted
| LogItemStarted (item : ThreadItem)
| LogItemUpdated (item : ThreadItem)
| LogItemCompleted (item : ThreadItem)
| LogTurnCompleted (input_tokens output_tokens : Z)
| LogTurnFailed (message : string)
| LogError (message : string)
| LogStallDetected
| LogRecoveryAttempt (attempt maxAttempts : Z)
| LogRecoveryStillStalled (attempt : Z)
| LogRecoverySucceeded (attempt : Z)
| LogRecoveryError (attempt : Z) (message : string)
| LogAllRecoveryFailed
| LogStartingSession
| LogResumingSession
| LogSessionComplete
| LogResult (level : ResultLevel).

(** An async computation: the lines it appended to the progress log, and
    either the message it rejected with ([inl]) or its value ([inr]). *)
Definition M (A : Type) : Type := (list log_line * (string + A))%type.

Definition ret {A} (a : A) : M A := ([], inr a).

Definition throw {A} (msg : string) : M A := ([], inl msg).

Definition bind {A B} (m : M A) (k : A -> M B) : M B :=
  match m with
  | (l, inl msg) => (l, inl msg)
  | (l, inr a) => let (l', r) := k a in (l ++ l', r)
  end.

(** [try { body } catch (error) { handler(error.message) }] *)
Definition try_catch {A} (body : M A) (handler : string -> M A) : M A :=
  match body with
  | (l, inl msg) => let (l', r) := handler msg in (l ++ l', r)
  | (l, inr a) => (l, inr a)
  end.

Definition writeProgress (line : log_line) : M unit := ([line], inr tt).

(** [await p] where [p] is supplied by the environment. *)
Definition await {A} (p : string + A) : M A := ([], p).

Declare Scope async_scope.
Delimit Scope async_scope with async.
Notation "x <- m ;; k" := (bind m (fun x => k))
  (at level 61, m at next level, right associativity) : async_scope.
Notation "m ;;; k" := (bind m (fun _ => k))
  (at level 61, right associativity) : async_scope.
Local Open Scope async_scope.

Definition logged {A} (m : M A) : list log_line := fst m.
Definition settled {A} (m : M A) : string + A := snd m.

(* ================================================================== *)
(** ** Timed event consumer *)

(** What one round of the race between [iterator.next()] and the stall
    timer settles to.  [{done: true}] is the end of the list. *)
Inductive Settlement : Type :=
| Yields (event : ThreadEvent)
| Rejects (message : string)
| TimerWins.

Definition EventSource : Type := list Settlement.

(** The local variables of [processEventsWithStallDetection]. *)
Record Locals : Type := mkLocals
  { l_items : list ThreadItem;
    l_threadId : option string;
    l_finalResponse : string;
    l_usage : option Usage }.

Definition initial_locals : Locals :=
  {| l_items := []; l_threadId := None; l_finalResponse := "";
     l_usage := None |}.

(** The [switch (event.type)] of the consumer. *)
Definition process_event (event : ThreadEvent) (st : Locals) : M Locals :=
  match event with
  | ThreadStarted thread_id =>
      let st' := {| l_items := l_items st; l_threadId := Some thread_id;
                    l_finalResponse := l_finalResponse st;
                    l_usage := l_usage st |} in
      writeProgress (LogThreadStarted thread_id) ;;; ret st'
  | TurnStarted => writeProgress LogTurnStarted ;;; ret st
  | ItemStarted item => writeProgress (LogItemStarted item) ;;; ret st
  | ItemUpdated item => writeProgress (LogItemUpdated item) ;;; ret st
  | ItemCompleted item =>
      writeProgress (LogItemCompleted item) ;;;
      ret {| l_items := l_items st ++ [item];
             l_threadId := l_threadId st;
             l_finalResponse :=
               match item with
               | AgentMessage text => text
               | _ => l_finalResponse st
               end;
             l_usage := l_usage st |}
  | TurnCompleted i o =>
      let st' := {| l_items := l_items st; l_threadId := l_threadId st;
                    l_finalResponse := l_finalResponse st;
                    l_usage := Some (mkUsage i o) |} in
      writeProgress (LogTurnCompleted i o) ;;; ret st'
  | TurnFailed message => writeProgress (LogTurnFailed message) ;;; ret st
  | ErrorEvent message => writeProgress (LogError message) ;;; ret st
  end.

(** [return { items, threadId, finalResponse, usage, stalled }] *)
Definition package (st : Locals) (stalled : bool) : EventProcessingResult :=
  {| items := l_items st; threadId := l_threadId st;
     finalResponse := l_finalResponse st; usage := l_usage st;
     stalled := stalled; error := None |}.

(** The [while (true)] loop, from the state [st] of the locals. *)
Fixpoint consume (events : EventSource) (st : Locals)
  : M EventProcessingResult :=
  match events with
  | [] => ret (package st false)
  | TimerWins :: _ => writeProgress LogStallDetected ;;; ret (package st true)
  | Rejects message :: _ => throw message
  | Yields event :: rest => st' <- process_event event st ;; consume rest st'
  end.

Definition processEventsWithStallDetection (events : EventSource)
  : M EventProcessingResult :=
  consume events initial_locals.

(* ================================================================== *)
(** ** Recovery orchestrator *)

(** The Codex SDK as the engine uses it.  [original_run] is what
    [await thread.runStreamed(prompt)] of the handler settles to;
    [recovery_run threadId attempt] is what
    [await codex.resumeThread(threadId).runStreamed(recoveryPrompt)] settles
    to in recovery attempt number [attempt].  [inl] is a rejection. *)
Record Codex : Type := mkCodex
  { original_run : string + EventSource;
    recovery_run : string -> Z -> string + EventSource }.

Definition attemptRecovery
  (codex : Codex) (threadId : string) (attempt maxAttempts : Z)
  : M (EventProcessingResult * bool) :=
  writeProgress (LogRecoveryAttempt attempt maxAttempts) ;;;
  try_catch
    (events <- await (recovery_run codex threadId attempt) ;;
     result <- processEventsWithStallDetection events ;;
     if stalled result then
       writeProgress (LogRecoveryStillStalled attempt) ;;;
       ret (result, false)
     else
       writeProgress (LogRecoverySucceeded attempt) ;;;
       ret (result, true))
    (fun errorMessage =>
       writeProgress (LogRecoveryError attempt errorMessage) ;;;
       ret ({| items := []; threadId := Some threadId;
               finalResponse := ""; usage := None; stalled := true;
               error := Some errorMessage |}, false)).

(** State of the [for] loop of [runWithStallRecovery]: the loop counter,
    the variables [result] and [recovery], and whether the loop has been
    left (by [break] or by its condition). *)
Record LoopState : Type := mkLoop
  { ls_attempt : Z;
    ls_result : EventProcessingResult;
    ls_recovery : RecoveryInfo;
    ls_exited : bool }.

(** One execution of the loop body, followed by [attempt++] unless the
    body ends in [break]. *)
Definition loop_body
  (codex : Codex) (threadId : string) (maxRecoveryAttempts : Z)
  (s : LoopState) : M LoopState :=
  let attempt := ls_attempt s in
  let result := ls_result s in
  let recovery1 :=
    {| attempted := attempted (ls_recovery s); attempts := attempt;
       recovered := recovered (ls_recovery s);
       lastError := lastError (ls_recovery s) |} in
  rr <- attemptRecovery codex threadId attempt maxRecoveryAttempts ;;
  let recoveryResult := fst rr in
  let recoverySuccess := snd rr in
  if recoverySuccess then
    ret {| ls_attempt := attempt;
           ls_result :=
             {| items := items result ++ items recoveryResult;
                threadId := Some threadId;
                finalResponse := finalResponse recoveryResult;
                usage := usage recoveryResult;
                stalled := stalled recoveryResult;
                error := error recoveryResult |};
           ls_recovery :=
             {| attempted := attempted recovery1;
                attempts := attempts recovery1;
                recovered := true;
                lastError := lastError recovery1 |};
           ls_exited := true |}
  else
    ret {| ls_attempt := attempt + 1;
           ls_result := result;
           ls_recovery :=
             {| attempted := attempted recovery1;
                attempts := attempts recovery1;
                recovered := recovered recovery1;
                lastError :=
                  Some (JS.or_default (error recoveryResult)
                          "Still stalled after recovery attempt") |};
           ls_exited := false |}.

(** One turn of [for (...; attempt <= maxRecoveryAttempts; attempt++)]:
    test the condition, then run the body.  A loop that has been left
    stays where it is. *)
Definition loop_step
  (codex : Codex) (threadId : string) (maxRecoveryAttempts : Z)
  (s : LoopState) : M LoopState :=
  if ls_exited s then ret s
  else if ls_attempt s <=? maxRecoveryAttempts then
    loop_body codex threadId maxRecoveryAttempts s
  else
    ret {| ls_attempt := ls_attempt s; ls_result := ls_result s;
           ls_recovery := ls_recovery s; ls_exited := true |}.

(** [n] turns of the loop. *)
Fixpoint loop_turns
  (codex : Codex) (threadId : string) (maxRecoveryAttempts : Z)
  (n : nat) (s : LoopState) : M LoopState :=
  match n with
  | O => ret s
  | S k =>
      s' <- loop_step codex threadId maxRecoveryAttempts s ;;
      loop_turns codex threadId maxRecoveryAttempts k s'
  end.

(** The state in which the loop is entered: [recovery.attempted = true]
    has been executed and [attempt = 1]. *)
Definition loop_entry (result : EventProcessingResult) : LoopState :=
  {| ls_attempt := 1;
     ls_result := result;
     ls_recovery :=
       {| attempted := true; attempts := 0; recovered := false;
          lastError := None |};
     ls_exited := false |}.

(** The loop runs its body at most [maxRecoveryAttempts] times and then
    fails its condition once: this many turns always leave it (see
    [loop_turns_exit] and [loop_turns_stable]). *)
Definition enough_turns (maxRecoveryAttempts : Z) : nat :=
  S (Z.to_nat maxRecoveryAttempts).

Definition runWithStallRecovery
  (codex : Codex) (events : EventSource) (getThreadId : option string)
  (maxRecoveryAttempts : Z)
  : M (EventProcessingResult * RecoveryInfo) :=
  result <- processEventsWithStallDetection events ;;
  let recovery :=
    {| attempted := false; attempts := 0; recovered := false;
       lastError := None |} in
  let threadId := JS.or_else (threadId result) getThreadId in
  match threadId with
  | Some tid =>
      if stalled result && JS.truthy threadId then
        s <- loop_turns codex tid maxRecoveryAttempts
               (enough_turns maxRecoveryAttempts) (loop_entry result) ;;
        (if negb (recovered (ls_recovery s))
         then writeProgress LogAllRecoveryFailed
         else ret tt) ;;;
        ret (ls_result s, ls_recovery s)
      else ret (result, recovery)
  | None => ret (result, recovery)
  end.

(* ================================================================== *)
(** ** Session run coordinator: the [run] and [reply] tools *)

Record Stats : Type := mkStats
  { totalItems : nat;
    commands : nat;
    fileChanges : nat;
    mcpCalls : nat;
    stats_usage : option Usage }.

(** The [summary] object of the handler (without the log and rollout file
    paths, which depend on the clock and the file system). *)
Record Summary : Type := mkSummary
  { sum_threadId : option string;
    content : string;
    keepsProgressLog : bool;
    stats : Stats;
    filesModified : list string;
    sum_recovery : option RecoveryInfo;
    needsUserInput : bool }.

Inductive Response : Type :=
| SummaryResponse (summary : Summary)
| ErrorResponse (error : string).

Definition has_type (ty : string) (i : ThreadItem) : bool :=
  String.eqb (item_type i) ty.

Definition describe_changes (i : ThreadItem) : list string :=
  match i with
  | FileChange changes _ =>
      map (fun c => (fst c ++ ": " ++ snd c)%string) changes
  | _ => []
  end.

Definition level_eqb (a b : ResultLevel) : bool :=
  match a, b with
  | PASS, PASS | FAIL, FAIL | ERROR, ERROR | TIMEOUT, TIMEOUT => true
  | _, _ => false
  end.

(** The part of the [try] block after [runWithStallRecovery] has returned;
    [reportedThreadId] is [result.threadId] for [run] and the caller's
    [threadId] for [reply]. *)
Definition report
  (result : EventProcessingResult) (recovery : RecoveryInfo)
  (reportedThreadId : option string) : M (ResultLevel * Response) :=
  writeProgress LogSessionComplete ;;;
  let hasUnrecoveredStall := stalled result && negb (recovered recovery) in
  let resultLevel :=
    if hasUnrecoveredStall then TIMEOUT
    else determineResultLevel (items result) false None in
  writeProgress (LogResult resultLevel) ;;;
  let commandItems := filter (has_type "command_execution") (items result) in
  let fileItems := filter (has_type "file_change") (items result) in
  let mcpItems := filter (has_type "mcp_tool_call") (items result) in
  ret (resultLevel,
       SummaryResponse
         {| sum_threadId := reportedThreadId;
            content := finalResponse result;
            keepsProgressLog := negb (level_eqb resultLevel PASS);
            stats :=
              {| totalItems := length (items result);
                 commands := length commandItems;
                 fileChanges := length fileItems;
                 mcpCalls := length mcpItems;
                 stats_usage := usage result |};
            filesModified := flat_map describe_changes fileItems;
            sum_recovery :=
              if attempted recovery then Some recovery else None;
            needsUserInput := hasUnrecoveredStall |}).

(** The [catch] block of both tools. *)
Definition report_error (errorMessage : string) : M (ResultLevel * Response) :=
  writeProgress (LogError errorMessage) ;;;
  let resultLevel := determineResultLevel [] true (Some errorMessage) in
  writeProgress (LogResult resultLevel) ;;;
  ret (resultLevel,
       ErrorResponse ("Codex Exec exited with code 1: " ++ errorMessage)%string).

(** [name === "run"]: the result level that is logged and the response. *)
Definition run_tool (codex : Codex) (maxAttempts : Z)
  : M (ResultLevel * Response) :=
  try_catch
    (writeProgress LogStartingSession ;;;
     events <- await (original_run codex) ;;
     let capturedThreadId : option string := None in
     rr <- runWithStallRecovery codex events capturedThreadId maxAttempts ;;
     report (fst rr) (snd rr) (threadId (fst rr)))
    report_error.

(** [name === "reply"] *)
Definition reply_tool (codex : Codex) (threadId : string) (maxAttempts : Z)
  : M (ResultLevel * Response) :=
  try_catch
    (writeProgress LogResumingSession ;;;
     events <- await (original_run codex) ;;
     rr <- runWithStallRecovery codex events (Some threadId) maxAttempts ;;
     report (fst rr) (snd rr) (Some threadId))
    report_error.

(* ================================================================== *)
(** ** Log formatting *)

(** A string is taken as the sequence of its code units, so [length] and
    [substring] count what [text.length] and [text.substring] count. *)

(** A JS integer in a template literal. *)
Definition number_to_string (n : Z) : string :=
  NilZero.string_of_int (Z.to_int n).

(** [text.substring(0, 100)] followed by ["..."] when
    [text.length > 100]. *)
Definition preview (text : string) : string :=
  (String.substring 0 100 text
   ++ (if (100 <? String.length text)%nat then "..." else ""))%string.

Definition formatItem (item : ThreadItem) : string :=
  match item with
  | AgentMessage text => ("[Message] " ++ preview text)%string
  | Reasoning text => ("[Reasoning] " ++ preview text)%string
  | CommandExecution command status exit_code =>
      ("[Command] " ++ command ++ " (status: " ++ status ++ ", exit: "
       ++ match exit_code with
          | Some code => number_to_string code
          | None => "running"
          end
       ++ ")")%string
  | FileChange changes status =>
      ("[FileChange] "
       ++ String.concat ", "
            (map (fun c => (fst c ++ ": " ++ snd c)%string) changes)
       ++ " (" ++ status ++ ")")%string
  | McpToolCall server tool status =>
      ("[MCP] " ++ server ++ "/" ++ tool ++ " (" ++ status ++ ")")%string
  | WebSearch query => ("[WebSearch] " ++ query)%string
  | TodoList todo =>
      ("[TodoList] " ++ number_to_string (Z.of_nat (length todo))
       ++ " items")%string
  | ErrorItem message => ("[Error] " ++ message)%string
  end.

(* ================================================================== *)
(** ** Tool dispatch *)

Definition DEFAULT_MAX_RECOVERY_ATTEMPTS : Z := 2.

(** The arguments of a tool call that the engine looks at; [threadId] is
    read by [reply] only. *)
Record ToolArgs : Type := mkArgs
  { arg_threadId : string;
    arg_level : option string;
    arg_maxRecoveryAttempts : option Z }.

(** [level || "L2"] *)
Definition effectiveLevel (args : ToolArgs) : string :=
  JS.or_default (arg_level args) "L2".

(** [maxRecoveryAttempts ?? DEFAULT_MAX_RECOVERY_ATTEMPTS] *)
Definition effectiveMaxAttempts (args : ToolArgs) : Z :=
  match arg_maxRecoveryAttempts args with
  | Some n => n
  | None => DEFAULT_MAX_RECOVERY_ATTEMPTS
  end.

(** The [CallToolRequestSchema] handler: the level under which the call
    is filed, the result level and the response. *)
Definition callTool (codex : Codex) (name : string) (args : ToolArgs)
  : M (string * (ResultLevel * Response)) :=
  if String.eqb name "run" then
    answer <- run_tool codex (effectiveMaxAttempts args) ;;
    ret (effectiveLevel args, answer)
  else if String.eqb name "reply" then
    answer <- reply_tool codex (arg_threadId args)
                (effectiveMaxAttempts args) ;;
    ret (effectiveLevel args, answer)
  else throw ("Unknown tool: " ++ name)%string.

(* ================================================================== *)
(** ** Vocabulary for the statements *)

(** The line that [process_event] writes for an event. *)
Definition event_line (event : ThreadEvent) : log_line :=
  match event with
  | ThreadStarted thread_id => LogThreadStarted thread_id
  | TurnStarted => LogTurnStarted
  | ItemStarted item => LogItemStarted item
  | ItemUpdated item => LogItemUpdated item
  | ItemCompleted item => LogItemCompleted item
  | TurnCompleted i o => LogTurnCompleted i o
  | TurnFailed message => LogTurnFailed message
  | ErrorEvent message => LogError message
  end.

(** The locals of the consumer after it has processed one event. *)
Definition after_event (event : ThreadEvent) (st : Locals) : Locals :=
  match settled (process_event event st) with
  | inr st' => st'
  | inl _ => st
  end.

(** The locals after a sequence of events, in arrival order. *)
Definition after_events (evs : list ThreadEvent) (st : Locals) : Locals :=
  fold_left (fun acc e => after_event e acc) evs st.

(** The [thread_id] of the last [thread.started] event of a sequence. *)
Definition last_thread_started (evs : list ThreadEvent) : option string :=
  fold_left
    (fun acc e => match e with ThreadStarted id => Some id | _ => acc end)
    evs None.

Definition is_thread_started (event : ThreadEvent) : bool :=
  match event with ThreadStarted _ => true | _ => false end.

(** [turn.failed] and [error] stream events. *)
Definition is_failure_notice (event : ThreadEvent) : bool :=
  match event with
  | TurnFailed _ | ErrorEvent _ => true
  | _ => false
  end.

(** A source that yields [evs] and whose next [next()] then rejects. *)
Definition rejects_after
  (evs : list ThreadEvent) (message : string) (rest : EventSource)
  : EventSource :=
  map Yields evs ++ Rejects message :: rest.

(** A source that yields [evs] and then stays silent until the timer fires. *)
Definition stalls_after (evs : list ThreadEvent) (rest : EventSource)
  : EventSource :=
  map Yields evs ++ TimerWins :: rest.

(** The line that opens every recovery attempt. *)
Definition is_recovery_attempt (line : log_line) : bool :=
  match line with LogRecoveryAttempt _ _ => true | _ => false end.

(** The error message contains one of the two indicator substrings. *)
Definition has_timeout_indicator (message : string) : Prop :=
  (exists pre post, message = (pre ++ "timeout" ++ post)%string)
  \/ (exists pre post, message = (pre ++ "aborted" ++ post)%string).

(** The items that recovery attempt [attempt] collects when it is run, the
    empty list when the attempt raises. *)
Definition attempt_items
  (codex : Codex) (threadId : string) (attempt maxAttempts : Z)
  : list ThreadItem :=
  match settled (attemptRecovery codex threadId attempt maxAttempts) with
  | inr rr => items (fst rr)
  | inl _ => []
  end.

(** Invariant of the recovery loop. *)
Definition loop_inv (maxRecoveryAttempts : Z) (s : LoopState) : Prop :=
  attempted (ls_recovery s) = true
  /\ 0 <= attempts (ls_recovery s) <= maxRecoveryAttempts
  /\ (ls_exited s = false ->
      recovered (ls_recovery s) = false
      /\ attempts (ls_recovery s) = ls_attempt s - 1
      /\ ls_attempt s <= maxRecoveryAttempts + 1).

(** The state after a loop body whose attempt succeeded. *)
Definition after_success
  (tid : string) (s : LoopState) (r : EventProcessingResult) : LoopState :=
  {| ls_attempt := ls_attempt s;
     ls_result :=
       {| items := items (ls_result s) ++ items r;
          threadId := Some tid;
          finalResponse := finalResponse r;
          usage := usage r;
          stalled := stalled r;
          error := error r |};
     ls_recovery :=
       {| attempted := attempted (ls_recovery s);
          attempts := ls_attempt s;
          recovered := true;
          lastError := lastError (ls_recovery s) |};
     ls_exited := true |}.

(** The state after a loop body whose attempt failed. *)
Definition after_failure
  (tid : string) (s : LoopState) (r : EventProcessingResult) : LoopState :=
  {| ls_attempt := ls_attempt s + 1;
     ls_result := ls_result s;
     ls_recovery :=
       {| attempted := attempted (ls_recovery s);
          attempts := ls_attempt s;
          recovered := recovered (ls_recovery s);
          lastError :=
            Some (JS.or_default (error r)
                    "Still stalled after recovery attempt") |};
     ls_exited := false |}.

(** The state and the log after [n] turns of the recovery loop. *)
Definition state_after
  (codex : Codex) (tid : string) (maxAttempts : Z) (n : nat) (s : LoopState)
  : LoopState :=
  match settled (loop_turns codex tid maxAttempts n s) with
  | inr s' => s'
  | inl _ => s
  end.

Definition log_after
  (codex : Codex) (tid : string) (maxAttempts : Z) (n : nat) (s : LoopState)
  : list log_line :=
  logged (loop_turns codex tid maxAttempts n s).

(** The [recovery] record with which [runWithStallRecovery] starts. *)
Definition fresh_recovery : RecoveryInfo :=
  {| attempted := false; attempts := 0; recovered := false;
     lastError := None |}.

(** Fixture: the original run starts thread X, completes two commands and
    stalls; the first recovery attempt completes a web search and stalls
    again; the second one completes a message and ends. *)
Definition item_A : ThreadItem := CommandExecution "ls" "completed" (Some 0).
Definition item_B : ThreadItem := CommandExecution "pwd" "completed" (Some 0).
Definition item_C : ThreadItem := AgentMessage "resumed and finished".
Definition item_D : ThreadItem := WebSearch "why is it stuck".

Definition stalled_run : EventSource :=
  stalls_after [ThreadStarted "X"; ItemCompleted item_A; ItemCompleted item_B]
    [].

Definition second_attempt_recovers : Codex :=
  {| original_run := inr stalled_run;
     recovery_run := fun _ attempt =>
       if attempt =? 1 then inr (stalls_after [ItemCompleted item_D] [])
       else inr (map Yields [ItemCompleted item_C]) |}.

(** Fixture: the same original run, recovered by the first attempt. *)
Definition first_attempt_recovers : Codex :=
  {| original_run := inr stalled_run;
     recovery_run := fun _ _ => inr (map Yields [ItemCompleted item_C]) |}.

(** Fixture: the same original run; every resume is refused. *)
Definition resume_unreachable : Codex :=
  {| original_run := inr stalled_run;
     recovery_run := fun _ _ => inl "task unreachable" |}.

(** Whether recovery attempt [attempt] reports success when it is run. *)
Definition attempt_succeeds
  (codex : Codex) (threadId : string) (attempt maxAttempts : Z) : bool :=
  match settled (attemptRecovery codex threadId attempt maxAttempts) with
  | inr rr => snd rr
  | inl _ => false
  end.

(** Invariant of the recovery loop that relates the accumulated result to
    the result [r0] of the original pass. *)
Definition merge_inv
  (codex : Codex) (tid : string) (maxAttempts : Z)
  (r0 : EventProcessingResult) (s : LoopState) : Prop :=
  1 <= ls_attempt s
  /\ (forall k, 1 <= k < ls_attempt s ->
        attempt_succeeds codex tid k maxAttempts = false)
  /\ (ls_exited s = false ->
      ls_result s = r0 /\ recovered (ls_recovery s) = false)
  /\ (ls_exited s = true ->
      (recovered (ls_recovery s) = false /\ ls_result s = r0)
      \/ (recovered (ls_recovery s) = true
          /\ attempts (ls_recovery s) = ls_attempt s
          /\ ls_attempt s <= maxAttempts
          /\ attempt_succeeds codex tid (ls_attempt s) maxAttempts = true
          /\ stalled (ls_result s) = false
          /\ items (ls_result s)
             = items r0 ++ attempt_items codex tid (ls_attempt s) maxAttempts)).

(** The original run raises [message] after having delivered [evs]:
    either acquiring the stream fails (then [evs] is empty), or the stream
    rejects after [evs]. *)
Definition raises
  (run : string + EventSource) (evs : list ThreadEvent) (message : string)
  : Prop :=
  (run = inl message /\ evs = [])
  \/ (exists rest, run = inr (rejects_after evs message rest)).

(** What the [catch] block of the tools answers for [message]. *)
Definition error_answer (message : string) : ResultLevel * Response :=
  (determineResultLevel [] true (Some message),
   ErrorResponse ("Codex Exec exited with code 1: " ++ message)%string).

(** Fixture: the stream of the original run rejects with a timeout
    message before any item has completed. *)
Definition times_out_early : Codex :=
  {| original_run :=
       inr (rejects_after [ThreadStarted "X"; TurnStarted]
              "request timeout after 30s" []);
     recovery_run := fun _ _ => inr (map Yields [ItemCompleted item_C]) |}.

(** Fixture: the original run stalls before any [thread.started] event. *)
Definition stalls_anonymous : Codex :=
  {| original_run :=
       inr (stalls_after [TurnStarted; ItemStarted item_A]
              [Yields (ItemCompleted item_A)]);
     recovery_run := fun _ _ => inr (map Yields [ItemCompleted item_C]) |}.

(** Fixture: the original run only reports failures and then ends. *)
Definition only_failure_notices : Codex :=
  {| original_run :=
       inr (map Yields [TurnFailed "model overloaded"; ErrorEvent "retrying";
                        TurnFailed "gave up"]);
     recovery_run := fun _ _ => inl "not expected" |}.

(** The events that a source delivers before its first settlement that is
    not an event. *)
Fixpoint delivered (events : EventSource) : list ThreadEvent :=
  match events with
  | Yields event :: rest => event :: delivered rest
  | _ => []
  end.

(** The first settlement that is not an event; [None] when the stream
    ends. *)
Fixpoint terminal (events : EventSource) : option Settlement :=
  match events with
  | [] => None
  | Yields _ :: rest => terminal rest
  | other :: _ => Some other
  end.

(** The items of the [item.completed] events, in order. *)
Definition completed_items (evs : list ThreadEvent) : list ThreadItem :=
  flat_map
    (fun e => match e with ItemCompleted item => [item] | _ => [] end) evs.

(** The text of the last completed message, [""] without one. *)
Definition last_message (evs : list ThreadEvent) : string :=
  fold_left
    (fun acc e =>
       match e with ItemCompleted (AgentMessage text) => text | _ => acc end)
    evs "".

(** The usage of the last [turn.completed] event. *)
Definition last_usage (evs : list ThreadEvent) : option Usage :=
  fold_left
    (fun acc e =>
       match e with TurnCompleted i o => Some (mkUsage i o) | _ => acc end)
    evs None.

(** The items the evaluator looks at when no error was raised. *)
Definition decides_level (i : ThreadItem) : bool :=
  match i with
  | AgentMessage _ | ErrorItem _ => true
  | FileChange _ status => String.eqb status "failed"
  | _ => false
  end.

(** Number of recovery attempts that a log records. *)
Definition count_attempt_lines (l : list log_line) : nat :=
  length (filter is_recovery_attempt l).

(** The result that recovery attempt [attempt] returns when it is run. *)
Definition attempt_result
  (codex : Codex) (threadId : string) (attempt maxAttempts : Z)
  : EventProcessingResult :=
  match settled (attemptRecovery codex threadId attempt maxAttempts) with
  | inr rr => fst rr
  | inl _ => package initial_locals true
  end.

(** Invariant of the recovery loop that counts the attempts. *)
Definition count_inv (s : LoopState) : Prop :=
  0 <= attempts (ls_recovery s)
  /\ (ls_exited s = false ->
      attempts (ls_recovery s) = ls_attempt s - 1).

(** Invariant of the recovery loop: what a successful attempt leaves. *)
Definition adopt_inv
  (codex : Codex) (tid : string) (maxAttempts : Z)
  (r0 : EventProcessingResult) (s : LoopState) : Prop :=
  (ls_exited s = false ->
   ls_result s = r0 /\ recovered (ls_recovery s) = false)
  /\ (recovered (ls_recovery s) = true ->
      ls_result s
      = (let pass :=
           attempt_result codex tid (attempts (ls_recovery s)) maxAttempts in
         {| items := items r0 ++ items pass;
            threadId := Some tid;
            finalResponse := finalResponse pass;
            usage := usage pass;
            stalled := false;
            error := None |})).

(** Fixture: the original run completes a message and stalls; the resumed
    run ends without a message. *)
Definition recovers_silently : Codex :=
  {| original_run :=
       inr (stalls_after
              [ThreadStarted "X"; ItemCompleted (AgentMessage "half way")] []);
     recovery_run := fun _ _ => inr (map Yields [TurnStarted]) |}.

(** How the level that a tool logs goes with its response. *)
Definition coherent_answer (answer : ResultLevel * Response) : Prop :=
  match snd answer with
  | SummaryResponse summary =>
      (fst answer = PASS \/ fst answer = FAIL \/ fst answer = TIMEOUT)
      /\ (needsUserInput summary = true <-> fst answer = TIMEOUT)
      /\ (keepsProgressLog summary = false <-> fst answer = PASS)
  | ErrorResponse _ => fst answer = TIMEOUT \/ fst answer = ERROR
  end.

(** The item counts of a summary add up. *)
Definition consistent_counts (answer : ResultLevel * Response) : Prop :=
  match snd answer with
  | SummaryResponse summary =>
      (commands (stats summary) + fileChanges (stats summary)
       + mcpCalls (stats summary) <= totalItems (stats summary))%nat
  | ErrorResponse _ => True
  end.

(** Invariant of the recovery loop about [lastError]. *)
Definition last_error_inv (s : LoopState) : Prop :=
  0 <= attempts (ls_recovery s)
  /\ (ls_exited s = false ->
      recovered (ls_recovery s) = false
      /\ attempts (ls_recovery s) = ls_attempt s - 1)
  /\ lastError (ls_recovery s) <> Some ""
  /\ (lastError (ls_recovery s) = None
      <-> attempts (ls_recovery s) = 0
          \/ (recovered (ls_recovery s) = true
              /\ attempts (ls_recovery s) = 1)).

(* ================================================================== *)
(** * Properties *)

(** ** Strings *)

Lemma prefix_iff (n h : string) :
  String.prefix n h = true <-> exists post, h = (n ++ post)%string.
Proof.
  revert h; induction n as [|c n IH]; intros h; simpl.
  - split; [intros _; exists h; reflexivity | destruct h; reflexivity].
  - destruct h as [|d h]; simpl.
    + split; [discriminate | intros [post H]; discriminate].
    + destruct (Ascii.ascii_dec c d) as [->|Hne].
      * rewrite IH. split; intros [post H]; exists post.
        -- now rewrite H.
        -- now injection H.
      * split; [discriminate | intros [post H]; injection H; congruence].
Qed.

Lemma includes_iff (n h : string) :
  JS.includes n h = true
  <-> exists pre post, h = (pre ++ n ++ post)%string.
Proof.
  induction h as [|c h IH].
  - cbn [JS.includes]. destruct (String.prefix n "") eqn:Hp.
    + split; [intros _ | reflexivity].
      apply prefix_iff in Hp. destruct Hp as [post Hp].
      exists "", post. exact Hp.
    + split; [discriminate |].
      intros (pre & post & H).
      destruct pre; [| discriminate].
      simpl in H.
      assert (String.prefix n "" = true) by (apply prefix_iff; eauto).
      congruence.
  - cbn [JS.includes]. destruct (String.prefix n (String c h)) eqn:Hp.
    + split; [intros _ | reflexivity].
      apply prefix_iff in Hp. destruct Hp as [post Hp].
      exists "", post. exact Hp.
    + rewrite IH. split.
      * intros (pre & post & H). exists (String c pre), post.
        simpl. now rewrite H.
      * intros (pre & post & H). destruct pre as [|d pre].
        -- simpl in H.
           assert (String.prefix n (String c h) = true)
             by (apply prefix_iff; eauto).
           congruence.
        -- simpl in H. injection H as _ H. eauto.
Qed.

(** ** Outcome evaluator *)

Lemma has_agent_message_iff (its : list ThreadItem) :
  existsb (fun i => String.eqb (item_type i) "agent_message") its = true
  <-> exists text, In (AgentMessage text) its.
Proof.
  rewrite existsb_exists. split.
  - intros (i & Hin & Hty). destruct i; try discriminate. eauto.
  - intros (text & Hin). exists (AgentMessage text). split; [exact Hin | reflexivity].
Qed.

(** C2 (precedence law): without a raised error, a list that holds a
    completed [agent_message] item is classified [PASS], whatever error
    items and failed file changes it holds besides. *)
Theorem determineResultLevel_message_pass
  (its : list ThreadItem) (errorMessage : option string) :
  (exists text, In (AgentMessage text) its) ->
  determineResultLevel its false errorMessage = PASS.
Proof.
  intros H. apply has_agent_message_iff in H.
  unfold determineResultLevel. cbv zeta. now rewrite H.
Qed.

Lemma determineResultLevel_message_pass_witness :
  (exists text,
      In (AgentMessage text)
        [ErrorItem "boom"; FileChange [("update", "a.ts")] "failed";
         AgentMessage "done"; ErrorItem "late"])
  /\ determineResultLevel
       [ErrorItem "boom"; FileChange [("update", "a.ts")] "failed";
        AgentMessage "done"; ErrorItem "late"] false None = PASS.
Proof.
  assert (H : exists text,
             In (AgentMessage text)
               [ErrorItem "boom"; FileChange [("update", "a.ts")] "failed";
                AgentMessage "done"; ErrorItem "late"]).
  { exists "done". simpl. auto. }
  split; [exact H |].
  exact (determineResultLevel_message_pass _ None H).
Defined.

Lemma determineResultLevel_error_timeout
  (its : list ThreadItem) (message : string) :
  determineResultLevel its true (Some message) = TIMEOUT
  <-> has_timeout_indicator message.
Proof.
  unfold determineResultLevel, has_timeout_indicator, JS.opt_includes.
  rewrite <- !includes_iff.
  destruct (JS.includes "timeout" message), (JS.includes "aborted" message);
    simpl; split; intros H; auto; try discriminate;
    destruct H; discriminate.
Qed.

Lemma determineResultLevel_error_cases
  (its : list ThreadItem) (message : option string) :
  determineResultLevel its true message = TIMEOUT
  \/ determineResultLevel its true message = ERROR.
Proof.
  unfold determineResultLevel.
  destruct (JS.opt_includes "timeout" message || JS.opt_includes "aborted" message);
    auto.
Qed.

(** ** The monad *)

Lemma bind_ret {A B} (a : A) (k : A -> M B) : bind (ret a) k = k a.
Proof. unfold bind, ret. destruct (k a). reflexivity. Qed.

Lemma bind_assoc {A B C} (m : M A) (k : A -> M B) (h : B -> M C) :
  bind (bind m k) h = bind m (fun a => bind (k a) h).
Proof.
  destruct m as [l [msg|a]]; simpl; [reflexivity |].
  destruct (k a) as [l1 [msg|b]]; simpl; [reflexivity |].
  destruct (h b) as [l2 r]. now rewrite app_assoc.
Qed.

Lemma bind_value {A B} (l : list log_line) (a : A) (k : A -> M B) :
  bind (l, inr a) k = (l ++ logged (k a), settled (k a)).
Proof. unfold bind, logged, settled. destruct (k a). reflexivity. Qed.

Lemma bind_rejected {A B} (l : list log_line) (msg : string) (k : A -> M B) :
  bind (l, inl msg) k = (l, inl msg).
Proof. reflexivity. Qed.

(** ** Timed event consumer *)

Lemma process_event_eq (event : ThreadEvent) (st : Locals) :
  process_event event st = ([event_line event], inr (after_event event st)).
Proof. destruct event; reflexivity. Qed.

Lemma consume_yields (evs : list ThreadEvent) (rest : EventSource) (st : Locals) :
  consume (map Yields evs ++ rest) st
  = (map event_line evs ++ logged (consume rest (after_events evs st)),
     settled (consume rest (after_events evs st))).
Proof.
  revert st; induction evs as [|e evs IH]; intros st.
  - simpl. unfold logged, settled. now destruct (consume rest st).
  - cbn [map app consume]. rewrite process_event_eq, bind_value.
    rewrite IH. reflexivity.
Qed.

Lemma after_events_app (evs1 evs2 : list ThreadEvent) (st : Locals) :
  after_events (evs1 ++ evs2) st = after_events evs2 (after_events evs1 st).
Proof. apply fold_left_app. Qed.

Lemma after_event_threadId (event : ThreadEvent) (st : Locals) :
  l_threadId (after_event event st)
  = match event with
    | ThreadStarted id => Some id
    | _ => l_threadId st
    end.
Proof. destruct event; reflexivity. Qed.

Lemma after_events_threadId (evs : list ThreadEvent) (st : Locals) :
  l_threadId (after_events evs st)
  = fold_left
      (fun acc e => match e with ThreadStarted id => Some id | _ => acc end)
      evs (l_threadId st).
Proof.
  revert st; induction evs as [|e evs IH]; intros st; [reflexivity |].
  cbn [after_events fold_left]. fold (after_events evs (after_event e st)).
  rewrite IH, after_event_threadId. reflexivity.
Qed.

Lemma consume_error_unset (events : EventSource) :
  forall st l r, consume events st = (l, inr r) -> error r = None.
Proof.
  induction events as [|s events IH]; intros st l r H.
  - injection H as _ <-. reflexivity.
  - destruct s as [e|msg|]; cbn [consume] in H.
    + rewrite process_event_eq, bind_value in H.
      destruct (consume events (after_event e st)) as [l' [m|r']] eqn:Hc;
        cbn in H; [discriminate |].
      injection H as _ <-. eapply IH; eauto.
    + discriminate.
    + injection H as _ <-. reflexivity.
Qed.

Lemma processEvents_rejects
  (evs : list ThreadEvent) (message : string) (rest : EventSource) :
  processEventsWithStallDetection (rejects_after evs message rest)
  = (map event_line evs, inl message).
Proof.
  unfold processEventsWithStallDetection, rejects_after.
  rewrite consume_yields. cbn. now rewrite app_nil_r.
Qed.

Lemma processEvents_stalls (evs : list ThreadEvent) (rest : EventSource) :
  processEventsWithStallDetection (stalls_after evs rest)
  = (map event_line evs ++ [LogStallDetected],
     inr (package (after_events evs initial_locals) true)).
Proof.
  unfold processEventsWithStallDetection, stalls_after.
  rewrite consume_yields. reflexivity.
Qed.

Lemma processEvents_ends (evs : list ThreadEvent) :
  processEventsWithStallDetection (map Yields evs)
  = (map event_line evs,
     inr (package (after_events evs initial_locals) false)).
Proof.
  unfold processEventsWithStallDetection.
  rewrite <- (app_nil_r (map Yields evs)), consume_yields.
  cbn. now rewrite app_nil_r.
Qed.

(** Every source is a run of delivered events followed by the end of the
    stream, a rejection, or a round that the timer wins. *)
Lemma source_shape (events : EventSource) :
  exists evs,
    events = map Yields evs
    \/ (exists message rest, events = rejects_after evs message rest)
    \/ (exists rest, events = stalls_after evs rest).
Proof.
  induction events as [|s events (evs & IH)].
  - exists []. now left.
  - destruct s as [e|message|].
    + exists (e :: evs).
      destruct IH as [-> | [(m & rest & ->) | (rest & ->)]]; eauto.
      * right; left. now exists m, rest.
      * right; right. now exists rest.
    + exists []. right; left. now exists message, events.
    + exists []. right; right. now exists events.
Qed.

(** C1, as stated, fails: a source whose first [next()] rejects with "boom"
    does not make the consumer return a result with [error = "boom"] and
    [stalled = false]. *)
Lemma processEvents_rejection_counterexample :
  ~ (exists l r,
        processEventsWithStallDetection [Rejects "boom"] = (l, inr r)
        /\ error r = Some "boom" /\ stalled r = false).
Proof. intros (l & r & H & _). discriminate H. Qed.

(** C1 (amended): when obtaining the next event raises, the consumer stops
    consuming and rejects with the raised message, after having logged the
    events delivered so far; whenever the consumer does return a result,
    its [error] field is unset. *)
Theorem processEvents_rejection_propagates :
  (forall evs message rest,
      processEventsWithStallDetection (rejects_after evs message rest)
      = (map event_line evs, inl message))
  /\ (forall events l r,
         processEventsWithStallDetection events = (l, inr r) ->
         error r = None).
Proof.
  split.
  - apply processEvents_rejects.
  - intros events l r H. eapply consume_error_unset; exact H.
Qed.

Lemma processEvents_rejection_propagates_witness :
  processEventsWithStallDetection
    (rejects_after [ItemCompleted (WebSearch "q")] "socket hang up"
       [Yields TurnStarted])
  = ([LogItemCompleted (WebSearch "q")], inl "socket hang up")
  /\ error (package initial_locals true) = None.
Proof.
  split.
  - exact (proj1 processEvents_rejection_propagates
             [ItemCompleted (WebSearch "q")] "socket hang up"
             [Yields TurnStarted]).
  - exact (proj2 processEvents_rejection_propagates
             [TimerWins] [LogStallDetected] (package initial_locals true)
             eq_refl).
Defined.

(** C4, as stated, fails: after [thread.started X] the consumer holds
    [X], and a later [thread.started Y] of the same run replaces it. *)
Lemma threadId_reassigned_counterexample :
  ~ (forall evs event id r1 r2,
        settled (processEventsWithStallDetection (map Yields evs)) = inr r1 ->
        threadId r1 = Some id ->
        settled (processEventsWithStallDetection (map Yields (evs ++ [event])))
        = inr r2 ->
        threadId r2 = Some id).
Proof.
  intros H.
  specialize (H [ThreadStarted "X"] (ThreadStarted "Y") "X"
                _ _ eq_refl eq_refl eq_refl).
  discriminate H.
Qed.

(** C4 (amended): the [threadId] that the consumer returns is the
    [thread_id] of the last [thread.started] event it consumed ([null] if
    there was none): every [thread.started] event assigns it, and no event
    of another type changes it. *)
Theorem threadId_is_last_thread_started :
  (forall evs,
      exists r,
        settled (processEventsWithStallDetection (map Yields evs)) = inr r
        /\ threadId r = last_thread_started evs)
  /\ (forall evs rest,
         exists r,
           settled (processEventsWithStallDetection (stalls_after evs rest))
           = inr r
           /\ threadId r = last_thread_started evs)
  /\ (forall id st, l_threadId (after_event (ThreadStarted id) st) = Some id)
  /\ (forall event st,
         is_thread_started event = false ->
         l_threadId (after_event event st) = l_threadId st).
Proof.
  repeat split.
  - intros evs. rewrite processEvents_ends. eexists; split; [reflexivity |].
    cbn [package threadId]. now rewrite after_events_threadId.
  - intros evs rest. rewrite processEvents_stalls.
    eexists; split; [reflexivity |].
    cbn [package threadId]. now rewrite after_events_threadId.
  - intros event st H. rewrite after_event_threadId.
    destruct event; try reflexivity. discriminate H.
Qed.

Lemma threadId_is_last_thread_started_witness :
  l_threadId
    (after_event (ItemCompleted (AgentMessage "done"))
       (after_event (ThreadStarted "X") initial_locals))
  = Some "X".
Proof.
  exact (proj2 (proj2 (proj2 threadId_is_last_thread_started))
           (ItemCompleted (AgentMessage "done"))
           (after_event (ThreadStarted "X") initial_locals) eq_refl).
Defined.

(** C9: when the source delivers nothing before the stall timer fires, the
    consumer returns [stalled = true] with an empty item list, whatever the
    source would have delivered afterwards. *)
Theorem processEvents_silent_source (rest : EventSource) :
  processEventsWithStallDetection (TimerWins :: rest)
  = ([LogStallDetected],
     inr {| items := []; threadId := None; finalResponse := "";
            usage := None; stalled := true; error := None |}).
Proof. reflexivity. Qed.

Lemma after_failure_notices (evs : list ThreadEvent) (st : Locals) :
  forallb is_failure_notice evs = true -> after_events evs st = st.
Proof.
  induction evs as [|e evs IH]; intros H; [reflexivity |].
  cbn [forallb] in H. apply andb_prop in H. destruct H as [He Hevs].
  cbn [after_events fold_left]. fold (after_events evs (after_event e st)).
  destruct e; try discriminate He; exact (IH Hevs).
Qed.

(** ** Recovery attempts *)

Section Recovery.

Variable codex : Codex.
Variable tid : string.
Variable maxAttempts : Z.

(** The three ways a recovery attempt can go. *)
Lemma attemptRecovery_cases (attempt : Z) :
  (exists message l,
      (recovery_run codex tid attempt = inl message /\ l = []
       \/ exists events,
            recovery_run codex tid attempt = inr events
            /\ processEventsWithStallDetection events = (l, inl message))
      /\ attemptRecovery codex tid attempt maxAttempts
         = (LogRecoveryAttempt attempt maxAttempts :: l
              ++ [LogRecoveryError attempt message],
            inr ({| items := []; threadId := Some tid; finalResponse := "";
                    usage := None; stalled := true;
                    error := Some message |}, false)))
  \/ (exists events l r,
         recovery_run codex tid attempt = inr events
         /\ processEventsWithStallDetection events = (l, inr r)
         /\ stalled r = true
         /\ attemptRecovery codex tid attempt maxAttempts
            = (LogRecoveryAttempt attempt maxAttempts :: l
                 ++ [LogRecoveryStillStalled attempt],
               inr (r, false)))
  \/ (exists events l r,
         recovery_run codex tid attempt = inr events
         /\ processEventsWithStallDetection events = (l, inr r)
         /\ stalled r = false
         /\ attemptRecovery codex tid attempt maxAttempts
            = (LogRecoveryAttempt attempt maxAttempts :: l
                 ++ [LogRecoverySucceeded attempt],
               inr (r, true))).
Proof.
  unfold attemptRecovery.
  destruct (recovery_run codex tid attempt) as [message|events] eqn:Hrun.
  - left. exists message, []. split; [now left | reflexivity].
  - destruct (processEventsWithStallDetection events) as [l [message|r]] eqn:Hp.
    + left. exists message, l. split; [right; eauto |].
      cbn. rewrite Hp. reflexivity.
    + destruct (stalled r) eqn:Hs.
      * right; left. exists events, l, r. repeat split; auto.
        cbn. rewrite Hp. cbn. rewrite Hs. reflexivity.
      * right; right. exists events, l, r. repeat split; auto.
        cbn. rewrite Hp. cbn. rewrite Hs. reflexivity.
Qed.

(** A recovery attempt never rejects, and it reports success exactly when
    its pass did not stall. *)
Lemma attemptRecovery_total (attempt : Z) :
  exists l rr,
    attemptRecovery codex tid attempt maxAttempts
    = (LogRecoveryAttempt attempt maxAttempts :: l, inr rr)
    /\ stalled (fst rr) = negb (snd rr).
Proof.
  destruct (attemptRecovery_cases attempt)
    as [(m & l & _ & H) | [(ev & l & r & _ & _ & Hs & H)
                          | (ev & l & r & _ & _ & Hs & H)]];
    rewrite H; eexists; eexists; (split; [reflexivity |]); cbn; auto.
Qed.

Lemma loop_body_eq (s : LoopState) (l : list log_line)
  (r : EventProcessingResult) (ok : bool) :
  attemptRecovery codex tid (ls_attempt s) maxAttempts = (l, inr (r, ok)) ->
  loop_body codex tid maxAttempts s
  = (l, inr (if ok then after_success tid s r else after_failure tid s r)).
Proof.
  intros H. unfold loop_body. cbv zeta. rewrite H, bind_value.
  destruct ok; cbn; now rewrite app_nil_r.
Qed.

Lemma loop_body_total (s : LoopState) :
  exists l r ok,
    attemptRecovery codex tid (ls_attempt s) maxAttempts
    = (LogRecoveryAttempt (ls_attempt s) maxAttempts :: l, inr (r, ok))
    /\ stalled r = negb ok
    /\ loop_body codex tid maxAttempts s
       = (LogRecoveryAttempt (ls_attempt s) maxAttempts :: l,
          inr (if ok then after_success tid s r else after_failure tid s r)).
Proof.
  destruct (attemptRecovery_total (ls_attempt s)) as (l & [r ok] & H & Hs).
  exists l, r, ok. repeat split; auto. now apply loop_body_eq.
Qed.

(** A property that every turn of the loop preserves holds after any
    number of turns, and the loop never rejects. *)
Lemma loop_turns_preserves (P : LoopState -> Prop) :
  (forall s, P s ->
     exists l s', loop_step codex tid maxAttempts s = (l, inr s') /\ P s') ->
  forall n s, P s ->
    exists l s', loop_turns codex tid maxAttempts n s = (l, inr s') /\ P s'.
Proof.
  intros Hstep n; induction n as [|n IH]; intros s Hs.
  - exists [], s. split; [reflexivity | exact Hs].
  - destruct (Hstep s Hs) as (l1 & s1 & H1 & Hs1).
    destruct (IH s1 Hs1) as (l2 & s2 & H2 & Hs2).
    exists (l1 ++ l2), s2. split; [| exact Hs2].
    cbn [loop_turns]. rewrite H1, bind_value, H2. reflexivity.
Qed.

Lemma loop_step_total (s : LoopState) :
  exists l s', loop_step codex tid maxAttempts s = (l, inr s').
Proof.
  unfold loop_step.
  destruct (ls_exited s); [eexists; eexists; reflexivity |].
  destruct (ls_attempt s <=? maxAttempts); [| eexists; eexists; reflexivity].
  destruct (loop_body_total s) as (l & r & ok & _ & _ & H).
  rewrite H. eauto.
Qed.

Lemma loop_step_exited (s : LoopState) :
  ls_exited s = true -> loop_step codex tid maxAttempts s = ([], inr s).
Proof. intros H. unfold loop_step. now rewrite H. Qed.

Lemma loop_turns_exited (n : nat) (s : LoopState) :
  ls_exited s = true -> loop_turns codex tid maxAttempts n s = ([], inr s).
Proof.
  intros H. induction n as [|n IH]; [reflexivity |].
  cbn [loop_turns]. rewrite (loop_step_exited s H), bind_value, IH.
  reflexivity.
Qed.

(** The state after [S n] turns is one turn after the state after [n]. *)
Lemma loop_turns_succ (n : nat) (s : LoopState) :
  loop_turns codex tid maxAttempts (S n) s
  = bind (loop_turns codex tid maxAttempts n s)
         (loop_step codex tid maxAttempts).
Proof.
  revert s; induction n as [|n IH]; intros s.
  - cbn [loop_turns]. rewrite bind_ret.
    destruct (loop_step codex tid maxAttempts s) as [l [m|s']]; cbn;
      now rewrite ?app_nil_r.
  - change (loop_turns codex tid maxAttempts (S (S n)) s)
      with (bind (loop_step codex tid maxAttempts s)
              (loop_turns codex tid maxAttempts (S n))).
    change (loop_turns codex tid maxAttempts (S n) s)
      with (bind (loop_step codex tid maxAttempts s)
              (loop_turns codex tid maxAttempts n)).
    rewrite bind_assoc.
    destruct (loop_step codex tid maxAttempts s) as [l [m|s']];
      [reflexivity |].
    rewrite !bind_value. now rewrite IH.
Qed.

(** The loop is left within [enough_turns] turns. *)
Lemma loop_turns_exit (n : nat) :
  forall s,
    (ls_exited s = true
     \/ (Z.to_nat (maxAttempts + 1 - ls_attempt s) < n)%nat) ->
    exists l s',
      loop_turns codex tid maxAttempts n s = (l, inr s')
      /\ ls_exited s' = true.
Proof.
  induction n as [|n IH]; intros s H.
  - destruct H as [H | H]; [| lia].
    exists [], s. split; [reflexivity | exact H].
  - destruct (ls_exited s) eqn:Hex.
    + rewrite loop_turns_exited by exact Hex. eauto.
    + destruct H as [H | H]; [discriminate |].
      cbn [loop_turns]. unfold loop_step. rewrite Hex.
      destruct (ls_attempt s <=? maxAttempts) eqn:Hle.
      * apply Z.leb_le in Hle.
        destruct (loop_body_total s) as (l & r & ok & _ & _ & Hb).
        rewrite Hb, bind_value.
        destruct ok.
        -- destruct (IH (after_success tid s r)) as (l' & s' & H' & He);
             [now left |].
           rewrite H'. cbn. eauto.
        -- destruct (IH (after_failure tid s r)) as (l' & s' & H' & He).
           { right. cbn [after_failure ls_attempt]. lia. }
           rewrite H'. cbn. eauto.
      * rewrite bind_ret.
        apply IH. now left.
Qed.

Lemma loop_entry_exits (result : EventProcessingResult) :
  exists l s,
    loop_turns codex tid maxAttempts (enough_turns maxAttempts)
      (loop_entry result) = (l, inr s)
    /\ ls_exited s = true.
Proof.
  apply loop_turns_exit. right. unfold enough_turns.
  cbn [loop_entry ls_attempt]. replace (maxAttempts + 1 - 1) with maxAttempts by lia.
  lia.
Qed.

(** More turns than needed change neither the state nor the log. *)
Lemma loop_turns_stable (n k : nat) (s s' : LoopState) (l : list log_line) :
  loop_turns codex tid maxAttempts n s = (l, inr s') ->
  ls_exited s' = true ->
  loop_turns codex tid maxAttempts (n + k) s = (l, inr s').
Proof.
  revert s l; induction n as [|n IH]; intros s l H He.
  - injection H as <- <-. cbn [Nat.add]. now apply loop_turns_exited.
  - cbn [Nat.add loop_turns] in *.
    destruct (loop_step_total s) as (l1 & s1 & H1).
    rewrite H1, bind_value in *.
    destruct (loop_turns codex tid maxAttempts n s1) as [l2 [m|s2]] eqn:H2;
      cbn in H; [discriminate |].
    injection H as <- <-.
    now rewrite (IH s1 l2 H2 He).
Qed.

End Recovery.

(** ** Recovery record *)

Lemma loop_entry_inv (maxAttempts : Z) (result : EventProcessingResult) :
  0 <= maxAttempts -> loop_inv maxAttempts (loop_entry result).
Proof. intros H. unfold loop_inv, loop_entry; cbn. repeat split; auto; lia. Qed.

Lemma loop_step_inv
  (codex : Codex) (tid : string) (maxAttempts : Z) (s : LoopState) :
  loop_inv maxAttempts s ->
  exists l s',
    loop_step codex tid maxAttempts s = (l, inr s')
    /\ loop_inv maxAttempts s'
    /\ attempts (ls_recovery s) <= attempts (ls_recovery s')
    /\ (ls_exited s = true -> s' = s /\ l = []).
Proof.
  intros (Hatt & Hrange & Hrun).
  unfold loop_step. destruct (ls_exited s) eqn:Hex.
  - exists [], s. repeat split; auto; try lia; try congruence.
    all: intros Hno; rewrite Hex in Hno; discriminate.
  - destruct (Hrun eq_refl) as (Hrec & Hcount & Hbound).
    destruct (ls_attempt s <=? maxAttempts) eqn:Hle.
    + apply Z.leb_le in Hle.
      destruct (loop_body_total codex tid maxAttempts s)
        as (l & r & ok & _ & _ & Hb).
      rewrite Hb. eexists; eexists; split; [reflexivity |].
      destruct ok; unfold loop_inv; cbn; repeat split;
        auto; try lia; try discriminate.
    + eexists; eexists; split; [reflexivity |].
      unfold loop_inv; cbn; repeat split; auto; try lia; discriminate.
Qed.

(** ** The orchestrator as a whole *)

Lemma runWithStallRecovery_rejects
  (codex : Codex) (events : EventSource) (getThreadId : option string)
  (maxAttempts : Z) (l : list log_line) (message : string) :
  processEventsWithStallDetection events = (l, inl message) ->
  runWithStallRecovery codex events getThreadId maxAttempts = (l, inl message).
Proof. intros H. unfold runWithStallRecovery. now rewrite H. Qed.

Lemma runWithStallRecovery_no_recovery
  (codex : Codex) (events : EventSource) (getThreadId : option string)
  (maxAttempts : Z) (l : list log_line) (r : EventProcessingResult) :
  processEventsWithStallDetection events = (l, inr r) ->
  stalled r && JS.truthy (JS.or_else (threadId r) getThreadId) = false ->
  runWithStallRecovery codex events getThreadId maxAttempts
  = (l, inr (r, fresh_recovery)).
Proof.
  intros H Hno. unfold runWithStallRecovery. rewrite H, bind_value.
  cbv zeta.
  destruct (JS.or_else (threadId r) getThreadId) as [t|];
    [rewrite Hno |]; cbn; now rewrite app_nil_r.
Qed.

Lemma runWithStallRecovery_recovering
  (codex : Codex) (events : EventSource) (getThreadId : option string)
  (maxAttempts : Z) (l : list log_line) (r : EventProcessingResult)
  (tid : string) :
  processEventsWithStallDetection events = (l, inr r) ->
  stalled r = true ->
  JS.or_else (threadId r) getThreadId = Some tid ->
  JS.truthy (Some tid) = true ->
  exists l' s,
    loop_turns codex tid maxAttempts (enough_turns maxAttempts) (loop_entry r)
    = (l', inr s)
    /\ ls_exited s = true
    /\ runWithStallRecovery codex events getThreadId maxAttempts
       = (l ++ l'
            ++ (if recovered (ls_recovery s) then []
                else [LogAllRecoveryFailed]),
          inr (ls_result s, ls_recovery s)).
Proof.
  intros H Hst Htid Htruthy.
  destruct (loop_entry_exits codex tid maxAttempts r) as (l' & s & Hloop & Hex).
  exists l', s. repeat split; auto.
  unfold runWithStallRecovery. rewrite H, bind_value. cbv zeta.
  rewrite Htid, Hst, Htruthy. cbn [andb].
  rewrite Hloop, bind_value.
  destruct (recovered (ls_recovery s)); cbn; now rewrite ?app_nil_r.
Qed.

(** The orchestrator rejects only if the original pass does. *)
Lemma runWithStallRecovery_total
  (codex : Codex) (events : EventSource) (getThreadId : option string)
  (maxAttempts : Z) (l : list log_line) (r : EventProcessingResult) :
  processEventsWithStallDetection events = (l, inr r) ->
  exists l' r' recovery,
    runWithStallRecovery codex events getThreadId maxAttempts
    = (l', inr (r', recovery)).
Proof.
  intros H.
  destruct (stalled r && JS.truthy (JS.or_else (threadId r) getThreadId))
    eqn:Hcond.
  - apply andb_prop in Hcond. destruct Hcond as [Hst Htruthy].
    destruct (JS.or_else (threadId r) getThreadId) as [tid|] eqn:Htid;
      [| discriminate].
    destruct (runWithStallRecovery_recovering codex events getThreadId
                maxAttempts l r tid H Hst Htid Htruthy)
      as (l' & s & _ & _ & Hrun).
    rewrite Hrun. eauto.
  - rewrite (runWithStallRecovery_no_recovery codex events getThreadId
               maxAttempts l r H Hcond). eauto.
Qed.

(** ** Errors raised by a recovery attempt *)




(** ** Merging the items of a recovery pass *)

Lemma loop_step_merge_inv
  (codex : Codex) (tid : string) (maxAttempts : Z)
  (r0 : EventProcessingResult) (s : LoopState) :
  merge_inv codex tid maxAttempts r0 s ->
  exists l s',
    loop_step codex tid maxAttempts s = (l, inr s')
    /\ merge_inv codex tid maxAttempts r0 s'.
Proof.
  intros (Hpos & Hfailed & Hrun & Hdone).
  unfold loop_step. destruct (ls_exited s) eqn:Hex.
  - exists [], s. split; [reflexivity |].
    unfold merge_inv. rewrite Hex. auto.
  - destruct (Hrun eq_refl) as (Hres & Hrec).
    destruct (ls_attempt s <=? maxAttempts) eqn:Hle.
    + apply Z.leb_le in Hle.
      destruct (loop_body_total codex tid maxAttempts s)
        as (l & r & ok & Hatt & Hst & Hb).
      rewrite Hb. eexists; eexists; split; [reflexivity |].
      assert (Hok : attempt_succeeds codex tid (ls_attempt s) maxAttempts = ok).
      { unfold attempt_succeeds. now rewrite Hatt. }
      assert (Hitems : attempt_items codex tid (ls_attempt s) maxAttempts
                       = items r).
      { unfold attempt_items. now rewrite Hatt. }
      destruct ok; unfold merge_inv; cbn.
      * repeat split; auto; try discriminate.
        intros _. right. rewrite Hitems, Hres. cbn in Hst. auto 10.
      * repeat split; auto; try lia; try discriminate.
        intros k Hk.
        destruct (Z.eq_dec k (ls_attempt s)) as [-> | Hne];
          [exact Hok | apply Hfailed; lia].
    + eexists; eexists; split; [reflexivity |].
      unfold merge_inv; cbn. repeat split; auto; try discriminate.
Qed.

Lemma loop_entry_merge_inv
  (codex : Codex) (tid : string) (maxAttempts : Z)
  (r0 : EventProcessingResult) :
  merge_inv codex tid maxAttempts r0 (loop_entry r0).
Proof.
  unfold merge_inv, loop_entry; cbn.
  repeat split; auto; try lia; discriminate.
Qed.

(** C3, as stated, fails: when the first recovery attempt collects an item
    and stalls again and the second attempt succeeds, the item of the first
    attempt is missing from the cumulative list. *)
Lemma merge_drops_failed_attempt_counterexample :
  exists l r recovery,
    runWithStallRecovery second_attempt_recovers stalled_run None 2
    = (l, inr (r, recovery))
    /\ attempts recovery = 2
    /\ attempt_items second_attempt_recovers "X" 1 2 = [item_D]
    /\ attempt_items second_attempt_recovers "X" 2 2 = [item_C]
    /\ items r = [item_A; item_B; item_C]
    /\ items r
       <> [item_A; item_B]
            ++ attempt_items second_attempt_recovers "X" 1 2
            ++ attempt_items second_attempt_recovers "X" 2 2.
Proof.
  eexists; eexists; eexists.
  split; [vm_compute; reflexivity |].
  repeat split; try reflexivity.
  vm_compute. discriminate.
Qed.

(** ** The tools *)

Lemma report_spec
  (result : EventProcessingResult) (recovery : RecoveryInfo)
  (reported : option string) :
  let hasUnrecoveredStall := stalled result && negb (recovered recovery) in
  let level :=
    if hasUnrecoveredStall then TIMEOUT
    else determineResultLevel (items result) false None in
  exists summary,
    report result recovery reported
    = ([LogSessionComplete; LogResult level],
       inr (level, SummaryResponse summary))
    /\ sum_threadId summary = reported
    /\ content summary = finalResponse result
    /\ totalItems (stats summary) = length (items result)
    /\ sum_recovery summary
       = (if attempted recovery then Some recovery else None)
    /\ needsUserInput summary = hasUnrecoveredStall.
Proof. cbv zeta. eexists. split; [reflexivity |]. cbn. auto. Qed.

Lemma report_error_eq (message : string) :
  report_error message
  = ([LogError message; LogResult (fst (error_answer message))],
     inr (error_answer message)).
Proof. reflexivity. Qed.

Section Tools.

Variable codex : Codex.
Variable maxAttempts : Z.

Lemma run_tool_refused (message : string) :
  original_run codex = inl message ->
  run_tool codex maxAttempts
  = ([LogStartingSession; LogError message;
      LogResult (fst (error_answer message))],
     inr (error_answer message)).
Proof. intros H. unfold run_tool. rewrite H. reflexivity. Qed.

Lemma run_tool_rejected
  (events : EventSource) (l : list log_line) (message : string) :
  original_run codex = inr events ->
  processEventsWithStallDetection events = (l, inl message) ->
  run_tool codex maxAttempts
  = (LogStartingSession :: l
       ++ [LogError message; LogResult (fst (error_answer message))],
     inr (error_answer message)).
Proof.
  intros H Hp. unfold run_tool. rewrite H.
  unfold await, writeProgress. rewrite !bind_value.
  rewrite (runWithStallRecovery_rejects _ _ _ _ _ _ Hp).
  reflexivity.
Qed.

Lemma run_tool_returned
  (events : EventSource) (l : list log_line)
  (r : EventProcessingResult) (recovery : RecoveryInfo) :
  original_run codex = inr events ->
  runWithStallRecovery codex events None maxAttempts
  = (l, inr (r, recovery)) ->
  run_tool codex maxAttempts
  = (LogStartingSession :: l ++ logged (report r recovery (threadId r)),
     settled (report r recovery (threadId r))).
Proof.
  intros H Hrun. unfold run_tool. rewrite H.
  unfold await, writeProgress. rewrite !bind_value, Hrun, bind_value.
  cbn [fst snd logged settled app].
  destruct (report_spec r recovery (threadId r)) as (s & Hrep & _).
  cbv zeta in Hrep. rewrite Hrep. reflexivity.
Qed.

Lemma reply_tool_refused (threadId message : string) :
  original_run codex = inl message ->
  reply_tool codex threadId maxAttempts
  = ([LogResumingSession; LogError message;
      LogResult (fst (error_answer message))],
     inr (error_answer message)).
Proof. intros H. unfold reply_tool. rewrite H. reflexivity. Qed.

Lemma reply_tool_rejected
  (threadId : string) (events : EventSource) (l : list log_line)
  (message : string) :
  original_run codex = inr events ->
  processEventsWithStallDetection events = (l, inl message) ->
  reply_tool codex threadId maxAttempts
  = (LogResumingSession :: l
       ++ [LogError message; LogResult (fst (error_answer message))],
     inr (error_answer message)).
Proof.
  intros H Hp. unfold reply_tool. rewrite H.
  unfold await, writeProgress. rewrite !bind_value.
  rewrite (runWithStallRecovery_rejects _ _ _ _ _ _ Hp).
  reflexivity.
Qed.

Lemma reply_tool_returned
  (tid : string) (events : EventSource) (l : list log_line)
  (r : EventProcessingResult) (recovery : RecoveryInfo) :
  original_run codex = inr events ->
  runWithStallRecovery codex events (Some tid) maxAttempts
  = (l, inr (r, recovery)) ->
  reply_tool codex tid maxAttempts
  = (LogResumingSession :: l ++ logged (report r recovery (Some tid)),
     settled (report r recovery (Some tid))).
Proof.
  intros H Hrun. unfold reply_tool. rewrite H.
  unfold await, writeProgress. rewrite !bind_value, Hrun, bind_value.
  cbn [fst snd logged settled app].
  destruct (report_spec r recovery (Some tid)) as (s & Hrep & _).
  cbv zeta in Hrep. rewrite Hrep. reflexivity.
Qed.

End Tools.

Lemma no_recovery_attempt_in_events (evs : list ThreadEvent) :
  existsb is_recovery_attempt (map event_line evs) = false.
Proof.
  induction evs as [|e evs IH]; [reflexivity |].
  cbn [map existsb]. rewrite IH. now destruct e.
Qed.

Lemma raises_processEvents
  (run : string + EventSource) (evs : list ThreadEvent) (message : string) :
  raises run evs message ->
  (run = inl message /\ evs = [])
  \/ (exists events,
         run = inr events
         /\ processEventsWithStallDetection events
            = (map event_line evs, inl message)).
Proof.
  intros [H | (rest & H)]; [now left | right].
  eexists. split; [exact H | apply processEvents_rejects].
Qed.

Lemma error_log_has_no_recovery_attempt
  (first : log_line) (evs : list ThreadEvent) (message : string)
  (level : ResultLevel) :
  is_recovery_attempt first = false ->
  existsb is_recovery_attempt
    (first :: map event_line evs ++ [LogError message; LogResult level])
  = false.
Proof.
  intros H. cbn [existsb]. rewrite H, existsb_app.
  now rewrite no_recovery_attempt_in_events.
Qed.

(** C5: with [hasError = true] the evaluator returns [TIMEOUT] exactly
    when the message contains "timeout" or "aborted", and [ERROR]
    otherwise; an error raised by the original run (when acquiring the
    stream or while streaming) makes both tools answer with that
    classification of the message, and no recovery attempt is started. *)
Theorem source_error_classification :
  (forall its message,
      determineResultLevel its true (Some message) = TIMEOUT
      <-> has_timeout_indicator message)
  /\ (forall its message,
         ~ has_timeout_indicator message ->
         determineResultLevel its true (Some message) = ERROR)
  /\ (forall its, determineResultLevel its true None = ERROR)
  /\ (forall codex maxAttempts evs message,
         raises (original_run codex) evs message ->
         let level := determineResultLevel [] true (Some message) in
         run_tool codex maxAttempts
         = (LogStartingSession :: map event_line evs
              ++ [LogError message; LogResult level],
            inr (level,
                 ErrorResponse
                   ("Codex Exec exited with code 1: " ++ message)%string))
         /\ existsb is_recovery_attempt (logged (run_tool codex maxAttempts))
            = false
         /\ (has_timeout_indicator message -> level = TIMEOUT))
  /\ (forall codex threadId maxAttempts evs message,
         raises (original_run codex) evs message ->
         let level := determineResultLevel [] true (Some message) in
         reply_tool codex threadId maxAttempts
         = (LogResumingSession :: map event_line evs
              ++ [LogError message; LogResult level],
            inr (level,
                 ErrorResponse
                   ("Codex Exec exited with code 1: " ++ message)%string))
         /\ existsb is_recovery_attempt
              (logged (reply_tool codex threadId maxAttempts))
            = false
         /\ (has_timeout_indicator message -> level = TIMEOUT)).
Proof.
  split; [exact determineResultLevel_error_timeout |].
  split.
  { intros its message Hno.
    destruct (determineResultLevel_error_cases its (Some message)) as [H | H];
      [| exact H].
    apply determineResultLevel_error_timeout in H. contradiction. }
  split; [reflexivity |].
  split.
  - intros codex maxAttempts evs message Hraise level.
    assert (Hrun : run_tool codex maxAttempts
                   = (LogStartingSession :: map event_line evs
                        ++ [LogError message; LogResult level],
                      inr (error_answer message))).
    { destruct (raises_processEvents _ _ _ Hraise)
        as [(H & ->) | (events & H & Hp)].
      - now rewrite (run_tool_refused codex maxAttempts message H).
      - now rewrite (run_tool_rejected codex maxAttempts events _ message H Hp). }
    split; [exact Hrun |]. split.
    + rewrite Hrun. now apply error_log_has_no_recovery_attempt.
    + intros Hind. now apply determineResultLevel_error_timeout.
  - intros codex threadId maxAttempts evs message Hraise level.
    assert (Hrun : reply_tool codex threadId maxAttempts
                   = (LogResumingSession :: map event_line evs
                        ++ [LogError message; LogResult level],
                      inr (error_answer message))).
    { destruct (raises_processEvents _ _ _ Hraise)
        as [(H & ->) | (events & H & Hp)].
      - now rewrite (reply_tool_refused codex maxAttempts threadId message H).
      - now rewrite (reply_tool_rejected codex maxAttempts threadId events _
                       message H Hp). }
    split; [exact Hrun |]. split.
    + rewrite Hrun. now apply error_log_has_no_recovery_attempt.
    + intros Hind. now apply determineResultLevel_error_timeout.
Qed.

Lemma source_error_classification_witness :
  raises (original_run times_out_early) [ThreadStarted "X"; TurnStarted]
    "request timeout after 30s"
  /\ run_tool times_out_early 2
     = ([LogStartingSession; LogThreadStarted "X"; LogTurnStarted;
         LogError "request timeout after 30s"; LogResult TIMEOUT],
        inr (TIMEOUT,
             ErrorResponse
               "Codex Exec exited with code 1: request timeout after 30s")).
Proof.
  assert (H : raises (original_run times_out_early)
                [ThreadStarted "X"; TurnStarted] "request timeout after 30s").
  { right. exists []. reflexivity. }
  split; [exact H |].
  exact (proj1 (proj1 (proj2 (proj2 (proj2 source_error_classification)))
                  times_out_early 2 [ThreadStarted "X"; TurnStarted]
                  "request timeout after 30s" H)).
Defined.

Lemma last_thread_started_result (evs : list ThreadEvent) (stalled : bool) :
  threadId (package (after_events evs initial_locals) stalled)
  = last_thread_started evs.
Proof. cbn [package threadId]. now rewrite after_events_threadId. Qed.

(** The summary carries a recovery record only if its [attempted] flag is
    set. *)
Lemma run_tool_recovery_present
  (codex : Codex) (maxAttempts : Z) (l : list log_line) (level : ResultLevel)
  (summary : Summary) (recovery : RecoveryInfo) :
  run_tool codex maxAttempts = (l, inr (level, SummaryResponse summary)) ->
  sum_recovery summary = Some recovery ->
  attempted recovery = true.
Proof.
  intros Hrun Hrec.
  destruct (original_run codex) as [message|events] eqn:Ho.
  - rewrite (run_tool_refused codex maxAttempts message Ho) in Hrun.
    discriminate.
  - destruct (processEventsWithStallDetection events) as [l0 [message|r0]]
      eqn:Hp.
    + rewrite (run_tool_rejected codex maxAttempts events l0 message Ho Hp)
        in Hrun.
      discriminate.
    + destruct (runWithStallRecovery_total codex events None maxAttempts
                  l0 r0 Hp) as (l1 & r1 & rec1 & H1).
      rewrite (run_tool_returned codex maxAttempts events l1 r1 rec1 Ho H1)
        in Hrun.
      destruct (report_spec r1 rec1 (threadId r1))
        as (s & Hrep & _ & _ & _ & Hs & _).
      cbv zeta in Hrep. rewrite Hrep in Hrun. cbn in Hrun.
      injection Hrun as _ _ <-. rewrite Hs in Hrec.
      destruct (attempted rec1) eqn:Ha; [| discriminate].
      injection Hrec as <-. exact Ha.
Qed.

(** C6: when the original run stalls without a [thread.started] event
    having been seen (the [run] tool supplies no identifier of its own),
    no recovery attempt is started and [attempted] stays [false], the
    result level is [TIMEOUT], [needsUserInput] is [true] and the summary
    has no recovery record; in general the summary of the [run] tool
    carries a recovery record only if that record's [attempted] is set. *)
Theorem stall_without_session_id :
  (forall codex maxAttempts evs rest,
      original_run codex = inr (stalls_after evs rest) ->
      last_thread_started evs = None ->
      exists result summary,
        runWithStallRecovery codex (stalls_after evs rest) None maxAttempts
        = (map event_line evs ++ [LogStallDetected],
           inr (result, fresh_recovery))
        /\ attempted fresh_recovery = false
        /\ stalled result = true
        /\ run_tool codex maxAttempts
           = (LogStartingSession :: map event_line evs
                ++ [LogStallDetected; LogSessionComplete; LogResult TIMEOUT],
              inr (TIMEOUT, SummaryResponse summary))
        /\ existsb is_recovery_attempt (logged (run_tool codex maxAttempts))
           = false
        /\ needsUserInput summary = true
        /\ sum_recovery summary = None)
  /\ (forall codex maxAttempts l level summary recovery,
         run_tool codex maxAttempts = (l, inr (level, SummaryResponse summary)) ->
         sum_recovery summary = Some recovery ->
         attempted recovery = true).
Proof.
  split; [| exact run_tool_recovery_present].
  intros codex maxAttempts evs rest Ho Hnone.
  pose (result := package (after_events evs initial_locals) true).
  assert (Hp : processEventsWithStallDetection (stalls_after evs rest)
               = (map event_line evs ++ [LogStallDetected], inr result))
    by apply processEvents_stalls.
  assert (Hrun : runWithStallRecovery codex (stalls_after evs rest) None
                   maxAttempts
                 = (map event_line evs ++ [LogStallDetected],
                    inr (result, fresh_recovery))).
  { apply runWithStallRecovery_no_recovery; [exact Hp |].
    unfold result. rewrite last_thread_started_result, Hnone. reflexivity. }
  destruct (report_spec result fresh_recovery (threadId result))
    as (summary & Hrep & _ & _ & _ & Hrec & Hneeds).
  cbv zeta in Hrep, Hneeds. cbn in Hrec, Hneeds.
  assert (Htool : run_tool codex maxAttempts
                  = (LogStartingSession :: map event_line evs
                       ++ [LogStallDetected; LogSessionComplete;
                           LogResult TIMEOUT],
                     inr (TIMEOUT, SummaryResponse summary))).
  { rewrite (run_tool_returned codex maxAttempts _ _ _ _ Ho Hrun), Hrep.
    cbn [logged settled fst snd]. now rewrite <- app_assoc. }
  exists result, summary.
  split; [exact Hrun |]. split; [reflexivity |]. split; [reflexivity |].
  split; [exact Htool |]. split; [| split; assumption].
  rewrite Htool. cbn [logged fst existsb is_recovery_attempt orb].
  rewrite existsb_app, no_recovery_attempt_in_events. reflexivity.
Qed.

Lemma stall_without_session_id_witness :
  exists summary,
    run_tool stalls_anonymous 2
    = ([LogStartingSession; LogTurnStarted; LogItemStarted item_A;
        LogStallDetected; LogSessionComplete; LogResult TIMEOUT],
       inr (TIMEOUT, SummaryResponse summary))
    /\ needsUserInput summary = true
    /\ sum_recovery summary = None.
Proof.
  destruct (proj1 stall_without_session_id stalls_anonymous 2
              [TurnStarted; ItemStarted item_A]
              [Yields (ItemCompleted item_A)] eq_refl eq_refl)
    as (result & summary & _ & _ & _ & Htool & _ & Hneeds & Hrec).
  exists summary. repeat split; assumption.
Defined.

(** C10: a stream that consists of [turn.failed] and [error] events only
    and then ends leaves nothing but their log lines: the consumer returns
    no items, [stalled = false] and no [error], and both tools classify the
    run as [PASS]. *)
Theorem failure_notices_are_logged_only (evs : list ThreadEvent) :
  forallb is_failure_notice evs = true ->
  processEventsWithStallDetection (map Yields evs)
  = (map event_line evs,
     inr {| items := []; threadId := None; finalResponse := "";
            usage := None; stalled := false; error := None |})
  /\ (forall codex maxAttempts,
         original_run codex = inr (map Yields evs) ->
         exists summary,
           run_tool codex maxAttempts
           = (LogStartingSession :: map event_line evs
                ++ [LogSessionComplete; LogResult PASS],
              inr (PASS, SummaryResponse summary))
           /\ needsUserInput summary = false
           /\ sum_recovery summary = None
           /\ totalItems (stats summary) = 0%nat)
  /\ (forall codex threadId maxAttempts,
         original_run codex = inr (map Yields evs) ->
         exists summary,
           reply_tool codex threadId maxAttempts
           = (LogResumingSession :: map event_line evs
                ++ [LogSessionComplete; LogResult PASS],
              inr (PASS, SummaryResponse summary))
           /\ needsUserInput summary = false
           /\ sum_recovery summary = None
           /\ totalItems (stats summary) = 0%nat).
Proof.
  intros Hall.
  pose (result := package initial_locals false).
  assert (Hp : processEventsWithStallDetection (map Yields evs)
               = (map event_line evs, inr result)).
  { rewrite processEvents_ends, (after_failure_notices evs _ Hall).
    reflexivity. }
  split; [exact Hp |].
  split.
  - intros codex maxAttempts Ho.
    assert (Hrun : runWithStallRecovery codex (map Yields evs) None maxAttempts
                   = (map event_line evs, inr (result, fresh_recovery)))
      by (apply runWithStallRecovery_no_recovery; [exact Hp | reflexivity]).
    destruct (report_spec result fresh_recovery (threadId result))
      as (summary & Hrep & _ & _ & Htotal & Hrec & Hneeds).
    cbv zeta in Hrep, Hneeds. cbn in Hrec, Hneeds, Htotal.
    exists summary. repeat split; try assumption.
    rewrite (run_tool_returned codex maxAttempts _ _ _ _ Ho Hrun), Hrep.
    reflexivity.
  - intros codex tid maxAttempts Ho.
    assert (Hrun : runWithStallRecovery codex (map Yields evs) (Some tid)
                     maxAttempts
                   = (map event_line evs, inr (result, fresh_recovery)))
      by (apply runWithStallRecovery_no_recovery; [exact Hp | reflexivity]).
    destruct (report_spec result fresh_recovery (Some tid))
      as (summary & Hrep & _ & _ & Htotal & Hrec & Hneeds).
    cbv zeta in Hrep, Hneeds. cbn in Hrec, Hneeds, Htotal.
    exists summary. repeat split; try assumption.
    rewrite (reply_tool_returned codex maxAttempts _ _ _ _ _ Ho Hrun), Hrep.
    reflexivity.
Qed.

Lemma failure_notices_are_logged_only_witness :
  forallb is_failure_notice
    [TurnFailed "model overloaded"; ErrorEvent "retrying"; TurnFailed "gave up"]
  = true
  /\ exists summary,
       run_tool only_failure_notices 2
       = ([LogStartingSession; LogTurnFailed "model overloaded";
           LogError "retrying"; LogTurnFailed "gave up";
           LogSessionComplete; LogResult PASS],
          inr (PASS, SummaryResponse summary)).
Proof.
  split; [reflexivity |].
  destruct (proj1 (proj2 (failure_notices_are_logged_only
                            [TurnFailed "model overloaded";
                             ErrorEvent "retrying"; TurnFailed "gave up"]
                            eq_refl))
              only_failure_notices 2 eq_refl)
    as (summary & Htool & _).
  exists summary. exact Htool.
Defined.

(** ** The record that the orchestrator returns *)

Lemma runWithStallRecovery_attempts_bound
  (codex : Codex) (events : EventSource) (getThreadId : option string)
  (maxRecoveryAttempts : Z) (l : list log_line)
  (r : EventProcessingResult) (recovery : RecoveryInfo) :
  0 <= maxRecoveryAttempts ->
  runWithStallRecovery codex events getThreadId maxRecoveryAttempts
  = (l, inr (r, recovery)) ->
  0 <= attempts recovery <= maxRecoveryAttempts
  /\ (attempted recovery = false ->
      attempts recovery = 0 /\ recovered recovery = false).
Proof.
  intros Hmax Hrun.
  destruct (processEventsWithStallDetection events) as [l0 [message|r0]] eqn:H0.
  - rewrite (runWithStallRecovery_rejects _ _ _ _ _ _ H0) in Hrun.
    discriminate.
  - destruct (stalled r0 && JS.truthy (JS.or_else (threadId r0) getThreadId))
      eqn:Hcond.
    + apply andb_prop in Hcond. destruct Hcond as [Hst Htruthy].
      destruct (JS.or_else (threadId r0) getThreadId) as [tid|] eqn:Htid;
        [| discriminate].
      destruct (runWithStallRecovery_recovering codex events getThreadId
                  maxRecoveryAttempts l0 r0 tid H0 Hst Htid Htruthy)
        as (l' & s & Hloop & _ & Heq).
      rewrite Heq in Hrun. injection Hrun as _ _ <-.
      destruct (loop_turns_preserves codex tid maxRecoveryAttempts
                  (loop_inv maxRecoveryAttempts)) with
        (n := enough_turns maxRecoveryAttempts) (s := loop_entry r0)
        as (l2 & s2 & Hloop2 & Hinv).
      { intros s1 Hs1.
        destruct (loop_step_inv codex tid maxRecoveryAttempts s1 Hs1)
          as (l1 & s' & H & Hi & _). eauto. }
      { now apply loop_entry_inv. }
      rewrite Hloop in Hloop2. injection Hloop2 as _ <-.
      destruct Hinv as (Hatt & Hrange & _).
      split; [exact Hrange | congruence].
    + rewrite (runWithStallRecovery_no_recovery _ _ _ _ _ _ H0 Hcond) in Hrun.
      injection Hrun as _ _ <-. cbn. split; [lia | auto].
Qed.

(** ** The scenarios of the specification, run on the model *)

(** Scenario 1: thread started, one completed message, end of stream. *)
Example scenario_message_then_end :
  exists summary,
    settled
      (run_tool
         {| original_run :=
              inr (map Yields [ThreadStarted "X";
                               ItemCompleted (AgentMessage "done")]);
            recovery_run := fun _ _ => inl "not expected" |} 2)
    = inr (PASS, SummaryResponse summary)
    /\ needsUserInput summary = false
    /\ sum_threadId summary = Some "X"
    /\ content summary = "done".
Proof. eexists. split; [reflexivity |]. cbn. auto. Qed.

(** Scenario 3: the first resume stalls again, the second one completes a
    message. *)
Example scenario_second_attempt_recovers :
  exists summary,
    settled (run_tool second_attempt_recovers 2)
    = inr (PASS, SummaryResponse summary)
    /\ needsUserInput summary = false
    /\ sum_recovery summary
       = Some {| attempted := true; attempts := 2; recovered := true;
                 lastError := Some "Still stalled after recovery attempt" |}.
Proof. eexists. split; [reflexivity |]. cbn. auto. Qed.

(** Recovery exhaustion: every resume is refused. *)
Example scenario_resume_unreachable :
  exists summary,
    settled (run_tool resume_unreachable 2)
    = inr (TIMEOUT, SummaryResponse summary)
    /\ needsUserInput summary = true
    /\ sum_recovery summary
       = Some {| attempted := true; attempts := 2; recovered := false;
                 lastError := Some "task unreachable" |}.
Proof. eexists. split; [reflexivity |]. cbn. auto. Qed.

(** With a bound of zero the recovery branch is entered but no attempt
    runs. *)
Example scenario_no_attempt_allowed :
  runWithStallRecovery resume_unreachable stalled_run None 0
  = ([LogThreadStarted "X"; LogItemCompleted item_A; LogItemCompleted item_B;
      LogStallDetected; LogAllRecoveryFailed],
     inr (package
            {| l_items := [item_A; item_B]; l_threadId := Some "X";
               l_finalResponse := ""; l_usage := None |} true,
          {| attempted := true; attempts := 0; recovered := false;
             lastError := None |})).
Proof. reflexivity. Qed.

(* ================================================================== *)
(** * Further properties of the engine *)

(** ** What the consumer returns *)

Lemma source_split (events : EventSource) :
  exists tail,
    events = map Yields (delivered events) ++ tail
    /\ terminal events = terminal tail
    /\ match tail with Yields _ :: _ => False | _ => True end.
Proof.
  induction events as [|s events (tail & Heq & Hterm & Hshape)].
  - exists []. repeat split.
  - destruct s as [e|message|].
    + exists tail. cbn [delivered terminal map app].
      now rewrite <- Heq.
    + exists (Rejects message :: events). repeat split.
    + exists (TimerWins :: events). repeat split.
Qed.

(** The consumer is decided by the delivered events and the first
    settlement that is not an event. *)
Lemma consume_spec (events : EventSource) (st : Locals) :
  consume events st
  = match terminal events with
    | Some (Rejects message) =>
        (map event_line (delivered events), inl message)
    | Some TimerWins =>
        (map event_line (delivered events) ++ [LogStallDetected],
         inr (package (after_events (delivered events) st) true))
    | _ =>
        (map event_line (delivered events),
         inr (package (after_events (delivered events) st) false))
    end.
Proof.
  revert st; induction events as [|s events IH]; intros st.
  - reflexivity.
  - destruct s as [e|message|]; [| reflexivity | reflexivity].
    cbn [consume delivered terminal map].
    rewrite process_event_eq, bind_value, IH.
    destruct (terminal events) as [[e'|message|]|]; reflexivity.
Qed.

Lemma terminal_not_event (events : EventSource) (event : ThreadEvent) :
  terminal events <> Some (Yields event).
Proof.
  induction events as [|s events IH]; [discriminate |].
  destruct s; cbn [terminal]; [exact IH | discriminate | discriminate].
Qed.

Lemma after_events_items (evs : list ThreadEvent) (st : Locals) :
  l_items (after_events evs st) = l_items st ++ completed_items evs.
Proof.
  revert st; induction evs as [|e evs IH]; intros st.
  - cbn. now rewrite app_nil_r.
  - cbn [after_events fold_left]. fold (after_events evs (after_event e st)).
    rewrite IH. destruct e; cbn; try reflexivity.
    now rewrite <- app_assoc.
Qed.

Lemma after_events_finalResponse (evs : list ThreadEvent) (st : Locals) :
  l_finalResponse (after_events evs st)
  = fold_left
      (fun acc e =>
         match e with ItemCompleted (AgentMessage text) => text | _ => acc end)
      evs (l_finalResponse st).
Proof.
  revert st; induction evs as [|e evs IH]; intros st; [reflexivity |].
  cbn [after_events fold_left]. fold (after_events evs (after_event e st)).
  rewrite IH. now destruct e.
Qed.

Lemma after_events_usage (evs : list ThreadEvent) (st : Locals) :
  l_usage (after_events evs st)
  = fold_left
      (fun acc e =>
         match e with TurnCompleted i o => Some (mkUsage i o) | _ => acc end)
      evs (l_usage st).
Proof.
  revert st; induction evs as [|e evs IH]; intros st; [reflexivity |].
  cbn [after_events fold_left]. fold (after_events evs (after_event e st)).
  rewrite IH. now destruct e.
Qed.

Lemma processEvents_returned
  (events : EventSource) (l : list log_line) (r : EventProcessingResult) :
  processEventsWithStallDetection events = (l, inr r) ->
  r = package (after_events (delivered events) initial_locals) (stalled r).
Proof.
  unfold processEventsWithStallDetection. rewrite consume_spec.
  destruct (terminal events) as [[e|message|]|]; intros H;
    try discriminate; now injection H as _ <-.
Qed.

(** X1: whenever the consumer returns, its item list is exactly the items
    of the [item.completed] events delivered before the stream ended or
    stalled, in arrival order; started and updated items and all other
    events contribute nothing. *)
Theorem processEvents_items
  (events : EventSource) (l : list log_line) (r : EventProcessingResult) :
  processEventsWithStallDetection events = (l, inr r) ->
  items r = completed_items (delivered events).
Proof.
  intros H. rewrite (processEvents_returned events l r H).
  cbn [package items]. now rewrite after_events_items.
Qed.

Lemma processEvents_items_witness :
  items (package
           {| l_items := [item_A; item_B]; l_threadId := Some "X";
              l_finalResponse := ""; l_usage := None |} true)
  = completed_items (delivered stalled_run).
Proof.
  exact (processEvents_items stalled_run
           [LogThreadStarted "X"; LogItemCompleted item_A;
            LogItemCompleted item_B; LogStallDetected] _ eq_refl).
Defined.

(** X2: whenever the consumer returns, [finalResponse] is the text of the
    last completed [agent_message] delivered (the empty string when there
    was none) and [usage] is that of the last [turn.completed] event:
    both are overwritten, never accumulated. *)
Theorem processEvents_last_wins
  (events : EventSource) (l : list log_line) (r : EventProcessingResult) :
  processEventsWithStallDetection events = (l, inr r) ->
  finalResponse r = last_message (delivered events)
  /\ usage r = last_usage (delivered events).
Proof.
  intros H. rewrite (processEvents_returned events l r H).
  cbn [package finalResponse usage].
  now rewrite after_events_finalResponse, after_events_usage.
Qed.

Lemma processEvents_last_wins_witness :
  finalResponse
    (package
       {| l_items := [AgentMessage "first"; AgentMessage "second"];
          l_threadId := None; l_finalResponse := "second";
          l_usage := Some (mkUsage 7 9) |} false)
  = last_message
      (delivered
         (map Yields [ItemCompleted (AgentMessage "first");
                      TurnCompleted 1 2;
                      ItemCompleted (AgentMessage "second");
                      TurnCompleted 7 9])).
Proof.
  exact (proj1 (processEvents_last_wins
                  (map Yields [ItemCompleted (AgentMessage "first");
                               TurnCompleted 1 2;
                               ItemCompleted (AgentMessage "second");
                               TurnCompleted 7 9])
                  [LogItemCompleted (AgentMessage "first");
                   LogTurnCompleted 1 2;
                   LogItemCompleted (AgentMessage "second");
                   LogTurnCompleted 7 9] _ eq_refl)).
Defined.

(** X3: how the consumer finishes is decided by the first settlement that
    is not an event: it rejects exactly when that is a rejection (with its
    message), returns [stalled = true] exactly when the timer won, and
    returns [stalled = false] exactly when the stream ended; nothing that
    the source holds after that settlement influences the outcome. *)
Theorem processEvents_outcome (events : EventSource) :
  (forall message,
      settled (processEventsWithStallDetection events) = inl message
      <-> terminal events = Some (Rejects message))
  /\ (forall r,
         settled (processEventsWithStallDetection events) = inr r ->
         (stalled r = true <-> terminal events = Some TimerWins)
         /\ (stalled r = false <-> terminal events = None))
  /\ (forall later,
         terminal events <> None ->
         processEventsWithStallDetection (events ++ later)
         = processEventsWithStallDetection events).
Proof.
  unfold processEventsWithStallDetection.
  split; [| split].
  - intros message. rewrite consume_spec.
    destruct (terminal events) as [[e|m|]|]; cbn; split; intros H;
      try discriminate; try congruence.
  - intros r. rewrite consume_spec.
    pose proof (terminal_not_event events) as Hne.
    destruct (terminal events) as [[e|m|]|]; cbn; intros H;
      try discriminate; try (now destruct (Hne e));
      injection H as <-; cbn; split; split; intros; congruence.
  - intros later Hterm. rewrite !consume_spec.
    assert (Hd : delivered (events ++ later) = delivered events
                 /\ terminal (events ++ later) = terminal events).
    { clear - Hterm. induction events as [|s events IH]; [now destruct Hterm |].
      destruct s; cbn [app delivered terminal] in *; auto.
      destruct (IH Hterm) as [-> ->]. auto. }
    destruct Hd as [-> ->]. reflexivity.
Qed.

Lemma processEvents_outcome_witness :
  processEventsWithStallDetection
    (stalled_run ++ [Yields (ItemCompleted item_C)])
  = processEventsWithStallDetection stalled_run.
Proof.
  refine (proj2 (proj2 (processEvents_outcome stalled_run))
            [Yields (ItemCompleted item_C)] _).
  discriminate.
Defined.

(** X4: the consumer writes exactly one line per delivered event, in
    order, followed by the stall notice when the timer won; a rejection
    and the end of the stream leave no line of their own. *)
Theorem processEvents_log (events : EventSource) :
  logged (processEventsWithStallDetection events)
  = map event_line (delivered events)
      ++ match terminal events with
         | Some TimerWins => [LogStallDetected]
         | _ => []
         end.
Proof.
  unfold processEventsWithStallDetection. rewrite consume_spec.
  destruct (terminal events) as [[e|m|]|]; cbn; now rewrite ?app_nil_r.
Qed.

(** ** What the evaluator looks at *)

Lemma filter_nonempty_iff {A} (f : A -> bool) (l : list A) :
  (0 <? Z.of_nat (length (filter f l))) = true
  <-> exists x, In x l /\ f x = true.
Proof.
  rewrite Z.ltb_lt. split.
  - intros H. destruct (filter f l) as [|x rest] eqn:Hf; [cbn in H; lia |].
    exists x. apply filter_In. rewrite Hf. now left.
  - intros (x & Hin & Hx).
    assert (Hx' : In x (filter f l)) by (apply filter_In; auto).
    destruct (filter f l); [destruct Hx' | cbn; lia].
Qed.

Lemma has_error_item_iff (its : list ThreadItem) :
  (exists i, In i its /\ String.eqb (item_type i) "error" = true)
  <-> exists message, In (ErrorItem message) its.
Proof.
  split.
  - intros (i & Hin & Hty). destruct i; try discriminate. eauto.
  - intros (message & Hin). exists (ErrorItem message). auto.
Qed.

Lemma has_failed_file_change_iff (its : list ThreadItem) :
  (exists i, In i its /\ is_failed_file_change i = true)
  <-> exists changes, In (FileChange changes "failed") its.
Proof.
  split.
  - intros (i & Hin & Hf). destruct i; try discriminate.
    cbn in Hf. apply String.eqb_eq in Hf. subst. eauto.
  - intros (changes & Hin). exists (FileChange changes "failed"). auto.
Qed.

(** X5: without a raised error the evaluator answers [PASS] or [FAIL]
    only, and [FAIL] exactly when the list holds no completed message and
    holds an error item or a file change whose status is "failed". *)
Theorem determineResultLevel_fail_iff
  (its : list ThreadItem) (errorMessage : option string) :
  (determineResultLevel its false errorMessage = FAIL
   <-> (~ exists text, In (AgentMessage text) its)
       /\ ((exists message, In (ErrorItem message) its)
           \/ (exists changes, In (FileChange changes "failed") its)))
  /\ (determineResultLevel its false errorMessage = PASS
      \/ determineResultLevel its false errorMessage = FAIL).
Proof.
  unfold determineResultLevel. cbv zeta.
  rewrite <- has_agent_message_iff, <- has_error_item_iff,
    <- has_failed_file_change_iff, <- !filter_nonempty_iff.
  destruct (existsb (fun i => String.eqb (item_type i) "agent_message") its);
    destruct (0 <? Z.of_nat
                (length (filter (fun i => String.eqb (item_type i) "error")
                           its)));
    destruct (0 <? Z.of_nat (length (filter is_failed_file_change its)));
    cbn [orb]; (split; [split | auto]);
    try discriminate; try tauto; try (intros _; split; auto; discriminate).
  all: intros (_ & [H | H]); discriminate.
Qed.

Lemma existsb_filter_implied {A} (f g : A -> bool) (l : list A) :
  (forall x, f x = true -> g x = true) ->
  existsb f (filter g l) = existsb f l.
Proof.
  intros Himp. induction l as [|x l IH]; [reflexivity |].
  cbn [filter existsb]. destruct (g x) eqn:Hg; cbn [existsb]; rewrite IH.
  - reflexivity.
  - destruct (f x) eqn:Hf; [| reflexivity].
    rewrite (Himp x Hf) in Hg. discriminate.
Qed.

Lemma filter_filter_implied {A} (f g : A -> bool) (l : list A) :
  (forall x, f x = true -> g x = true) ->
  filter f (filter g l) = filter f l.
Proof.
  intros Himp. induction l as [|x l IH]; [reflexivity |].
  cbn [filter]. destruct (g x) eqn:Hg; cbn [filter]; rewrite IH.
  - reflexivity.
  - destruct (f x) eqn:Hf; [| reflexivity].
    rewrite (Himp x Hf) in Hg. discriminate.
Qed.

(** X6: the evaluator looks at completed messages, error items and failed
    file changes only: dropping every other item (commands whatever their
    status and exit code, tool calls, reasoning, searches, to-do lists,
    file changes that did not fail) never changes the level, and a list
    made of such items only is [PASS]. *)
Theorem determineResultLevel_ignores_commands
  (its : list ThreadItem) (hasError : bool) (errorMessage : option string) :
  determineResultLevel (filter decides_level its) hasError errorMessage
  = determineResultLevel its hasError errorMessage
  /\ (forallb (fun i => negb (decides_level i)) its = true ->
      determineResultLevel its false errorMessage = PASS).
Proof.
  assert (Heq : forall h,
             determineResultLevel (filter decides_level its) h errorMessage
             = determineResultLevel its h errorMessage).
  { intros h. unfold determineResultLevel. cbv zeta.
    rewrite existsb_filter_implied, !filter_filter_implied;
      try reflexivity; intros i; now destruct i. }
  split; [apply Heq |].
  intros Hnone.
  assert (Hempty : filter decides_level its = []).
  { clear Heq. induction its as [|i its IH]; [reflexivity |].
    cbn [forallb] in Hnone. apply andb_prop in Hnone.
    destruct Hnone as [Hi Hrest]. cbn [filter].
    destruct (decides_level i); [discriminate | auto]. }
  rewrite <- (Heq false), Hempty. reflexivity.
Qed.

Lemma determineResultLevel_ignores_commands_witness :
  determineResultLevel
    [CommandExecution "ls /nope" "failed" (Some 2);
     McpToolCall "fs" "read" "failed";
     FileChange [("add", "a.ts")] "completed"] false None
  = PASS.
Proof.
  exact (proj2 (determineResultLevel_ignores_commands
                  [CommandExecution "ls /nope" "failed" (Some 2);
                   McpToolCall "fs" "read" "failed";
                   FileChange [("add", "a.ts")] "completed"] false None)
           eq_refl).
Defined.

Lemma existsb_permutation {A} (f : A -> bool) (l l' : list A) :
  Permutation l l' -> existsb f l = existsb f l'.
Proof.
  induction 1 as [|x l l' _ IH|x y l|l l' l'' _ IH1 _ IH2]; cbn [existsb].
  - reflexivity.
  - now rewrite IH.
  - now destruct (f x), (f y).
  - now rewrite IH1.
Qed.

Lemma filter_length_permutation {A} (f : A -> bool) (l l' : list A) :
  Permutation l l' -> length (filter f l) = length (filter f l').
Proof.
  induction 1 as [|x l l' _ IH|x y l|l l' l'' _ IH1 _ IH2]; cbn [filter].
  - reflexivity.
  - destruct (f x); cbn [length]; now rewrite IH.
  - now destruct (f x), (f y).
  - now rewrite IH1.
Qed.

(** X7: the level does not depend on the order of the items: lists that
    are permutations of each other are classified alike. *)
Theorem determineResultLevel_order_irrelevant
  (its its' : list ThreadItem) (hasError : bool)
  (errorMessage : option string) :
  Permutation its its' ->
  determineResultLevel its hasError errorMessage
  = determineResultLevel its' hasError errorMessage.
Proof.
  intros Hperm. unfold determineResultLevel. cbv zeta.
  rewrite (existsb_permutation _ its its' Hperm).
  rewrite (filter_length_permutation
             (fun i => String.eqb (item_type i) "error") its its' Hperm).
  rewrite (filter_length_permutation is_failed_file_change its its' Hperm).
  reflexivity.
Qed.

Lemma determineResultLevel_order_irrelevant_witness :
  determineResultLevel [ErrorItem "boom"; item_A] false None
  = determineResultLevel [item_A; ErrorItem "boom"] false None.
Proof.
  exact (determineResultLevel_order_irrelevant
           [ErrorItem "boom"; item_A] [item_A; ErrorItem "boom"] false None
           (perm_swap item_A (ErrorItem "boom") [])).
Defined.

(** ** Formatting of items *)

Lemma string_length_append (a b : string) :
  String.length (a ++ b)%string = (String.length a + String.length b)%nat.
Proof. induction a as [|c a IH]; cbn; [reflexivity | now rewrite IH]. Qed.

Lemma substring_whole (n : nat) (s : string) :
  (String.length s <= n)%nat -> String.substring 0 n s = s.
Proof.
  revert n; induction s as [|c s IH]; intros n H.
  - now destruct n.
  - destruct n as [|n]; cbn in H; [lia |].
    cbn. rewrite IH; [reflexivity | lia].
Qed.

Lemma substring_length (n : nat) (s : string) :
  String.length (String.substring 0 n s) = Nat.min n (String.length s).
Proof.
  revert n; induction s as [|c s IH]; intros n.
  - now destruct n.
  - destruct n as [|n]; [reflexivity |]. cbn. now rewrite IH.
Qed.

Lemma append_cancel_l (a x y : string) :
  (a ++ x)%string = (a ++ y)%string -> x = y.
Proof.
  induction a as [|c a IH]; cbn; intros H; [exact H |].
  injection H as H. auto.
Qed.

Lemma preview_short (text : string) :
  (String.length text <= 100)%nat -> preview text = text.
Proof.
  intros H. unfold preview. rewrite (substring_whole 100 text H).
  destruct (Nat.ltb_spec 100 (String.length text)) as [Hlt | _]; [lia |].
  clear H. induction text as [|c text IH]; cbn; [reflexivity | now rewrite IH].
Qed.

Lemma preview_length (text : string) :
  String.length (preview text)
  = if (100 <? String.length text)%nat then 103%nat
    else String.length text.
Proof.
  unfold preview. rewrite string_length_append, substring_length.
  destruct (Nat.ltb_spec 100 (String.length text)) as [Hlt | Hle];
    cbn [String.length]; lia.
Qed.

(** X8: a message or reasoning item is logged with at most the first 100
    characters of its text; a text of up to 100 characters (100 included)
    is shown in full and without ellipsis, a longer one is cut after 100
    characters and followed by "...", so the formatted line never exceeds
    the label plus 103 characters. *)
Theorem formatItem_message_preview (text : string) :
  ((String.length text <= 100)%nat ->
   formatItem (AgentMessage text) = ("[Message] " ++ text)%string
   /\ formatItem (Reasoning text) = ("[Reasoning] " ++ text)%string)
  /\ ((100 < String.length text)%nat ->
      formatItem (AgentMessage text)
      = ("[Message] " ++ String.substring 0 100 text ++ "...")%string
      /\ formatItem (Reasoning text)
         = ("[Reasoning] " ++ String.substring 0 100 text ++ "...")%string)
  /\ (String.length (formatItem (AgentMessage text)) <= 113)%nat
  /\ (String.length (formatItem (Reasoning text)) <= 115)%nat.
Proof.
  split; [| split; [| split]].
  - intros H. cbn [formatItem]. now rewrite (preview_short text H).
  - intros H. cbn [formatItem]. unfold preview.
    apply Nat.ltb_lt in H. now rewrite H.
  - cbn [formatItem]. rewrite string_length_append, preview_length.
    destruct (Nat.ltb_spec 100 (String.length text));
      cbn [String.length]; lia.
  - cbn [formatItem]. rewrite string_length_append, preview_length.
    destruct (Nat.ltb_spec 100 (String.length text));
      cbn [String.length]; lia.
Qed.

Lemma formatItem_message_preview_witness :
  formatItem (AgentMessage "done") = "[Message] done"
  /\ formatItem (Reasoning "done") = "[Reasoning] done".
Proof.
  refine (proj1 (formatItem_message_preview "done") _).
  cbn. lia.
Defined.

(** X9: the bracketed label that opens a formatted item identifies the
    type of the item: two items that are formatted alike have the same
    [type]. *)
Theorem formatItem_label_identifies_type (i j : ThreadItem) :
  formatItem i = formatItem j -> item_type i = item_type j.
Proof.
  destruct i, j; cbn [formatItem item_type]; intros H;
    try reflexivity; cbn in H; discriminate H.
Qed.

Lemma formatItem_label_identifies_type_witness :
  formatItem (FileChange [("add", "a.ts, update: b.ts")] "completed")
  = formatItem (FileChange [("add", "a.ts"); ("update", "b.ts")] "completed")
  /\ item_type (FileChange [("add", "a.ts, update: b.ts")] "completed")
     = item_type (FileChange [("add", "a.ts"); ("update", "b.ts")] "completed").
Proof.
  split; [reflexivity |].
  exact (formatItem_label_identifies_type
           (FileChange [("add", "a.ts, update: b.ts")] "completed")
           (FileChange [("add", "a.ts"); ("update", "b.ts")] "completed")
           eq_refl).
Defined.

Lemma number_to_string_not_running (n : Z) (rest : string) :
  (number_to_string n ++ rest)%string <> ("running" ++ rest)%string.
Proof.
  unfold number_to_string, NilZero.string_of_int, NilZero.string_of_uint.
  destruct (Z.to_int n) as [d|d]; destruct d; cbn; discriminate.
Qed.

(** X10: a command that has an exit code, the exit code 0 included, is
    never formatted like the same command still running: only a missing
    exit code is shown as "running". *)
Theorem formatItem_exit_code_shown (command status : string) (code : Z) :
  formatItem (CommandExecution command status (Some code))
  <> formatItem (CommandExecution command status None).
Proof.
  cbn [formatItem]. intros H.
  apply (append_cancel_l "[Command] ") in H.
  apply append_cancel_l in H.
  apply (append_cancel_l " (status: ") in H.
  apply append_cancel_l in H.
  apply (append_cancel_l ", exit: ") in H.
  exact (number_to_string_not_running code ")" H).
Qed.

(** ** Counting the recovery attempts *)

Lemma count_attempt_lines_app (l l' : list log_line) :
  count_attempt_lines (l ++ l')
  = (count_attempt_lines l + count_attempt_lines l')%nat.
Proof. unfold count_attempt_lines. now rewrite filter_app, length_app. Qed.

Lemma count_attempt_lines_events (evs : list ThreadEvent) :
  count_attempt_lines (map event_line evs) = 0%nat.
Proof.
  induction evs as [|e evs IH]; [reflexivity |].
  unfold count_attempt_lines in *. cbn [map filter].
  now destruct e.
Qed.

Lemma count_attempt_lines_pass
  (events : EventSource) (l : list log_line)
  (r : string + EventProcessingResult) :
  processEventsWithStallDetection events = (l, r) ->
  count_attempt_lines l = 0%nat.
Proof.
  intros H.
  assert (Hl : l = logged (processEventsWithStallDetection events))
    by now rewrite H.
  rewrite Hl. unfold processEventsWithStallDetection. rewrite consume_spec.
  destruct (terminal events) as [[e|m|]|]; cbn [logged fst];
    rewrite ?count_attempt_lines_app, count_attempt_lines_events;
    reflexivity.
Qed.

Lemma attemptRecovery_one_line
  (codex : Codex) (tid : string) (attempt maxAttempts : Z) :
  count_attempt_lines (logged (attemptRecovery codex tid attempt maxAttempts))
  = 1%nat.
Proof.
  destruct (attemptRecovery_cases codex tid maxAttempts attempt)
    as [(m & l & Hl & H) | [(ev & l & r & _ & Hp & _ & H)
                           | (ev & l & r & _ & Hp & _ & H)]];
    rewrite H; cbn [logged fst];
    change (LogRecoveryAttempt attempt maxAttempts :: ?x)
      with ([LogRecoveryAttempt attempt maxAttempts] ++ x);
    rewrite !count_attempt_lines_app.
  - destruct Hl as [(_ & ->) | (events & _ & Hp)]; [reflexivity |].
    now rewrite (count_attempt_lines_pass _ _ _ Hp).
  - now rewrite (count_attempt_lines_pass _ _ _ Hp).
  - now rewrite (count_attempt_lines_pass _ _ _ Hp).
Qed.

Lemma loop_step_count
  (codex : Codex) (tid : string) (maxAttempts : Z) (s : LoopState) :
  count_inv s ->
  exists l s',
    loop_step codex tid maxAttempts s = (l, inr s')
    /\ count_inv s'
    /\ Z.of_nat (count_attempt_lines l)
       = attempts (ls_recovery s') - attempts (ls_recovery s).
Proof.
  intros (Hpos & Hrun). unfold loop_step.
  destruct (ls_exited s) eqn:Hex.
  - exists [], s. split; [reflexivity |]. split.
    + split; [exact Hpos | congruence].
    + cbn. lia.
  - specialize (Hrun eq_refl).
    destruct (ls_attempt s <=? maxAttempts) eqn:Hle.
    + destruct (loop_body_total codex tid maxAttempts s)
        as (l & r & ok & Hatt & _ & Hb).
      rewrite Hb. eexists; eexists; split; [reflexivity |].
      pose proof (attemptRecovery_one_line codex tid (ls_attempt s)
                    maxAttempts) as Hone.
      rewrite Hatt in Hone. cbn [logged fst] in Hone. rewrite Hone.
      destruct ok; unfold count_inv; cbn; repeat split; try lia;
        try discriminate.
    + eexists; eexists; split; [reflexivity |].
      unfold count_inv; cbn. repeat split; try lia; try discriminate.
Qed.

Lemma loop_turns_count
  (codex : Codex) (tid : string) (maxAttempts : Z) (n : nat) :
  forall s,
    count_inv s ->
    exists l s',
      loop_turns codex tid maxAttempts n s = (l, inr s')
      /\ count_inv s'
      /\ Z.of_nat (count_attempt_lines l)
         = attempts (ls_recovery s') - attempts (ls_recovery s).
Proof.
  induction n as [|n IH]; intros s Hs.
  - exists [], s. split; [reflexivity |]. split; [exact Hs | cbn; lia].
  - destruct (loop_step_count codex tid maxAttempts s Hs)
      as (l1 & s1 & H1 & Hs1 & Hc1).
    destruct (IH s1 Hs1) as (l2 & s2 & H2 & Hs2 & Hc2).
    exists (l1 ++ l2), s2. split; [| split; [exact Hs2 |]].
    + cbn [loop_turns]. now rewrite H1, bind_value, H2.
    + rewrite count_attempt_lines_app. lia.
Qed.

(** X11: the number of recovery attempts that [runWithStallRecovery]
    starts (one opening log line each) is exactly the [attempts] field of
    the record it returns, whatever the attempts do; with a non-negative
    bound it is at most [maxRecoveryAttempts]. *)
Theorem recovery_attempts_counted
  (codex : Codex) (events : EventSource) (getThreadId : option string)
  (maxRecoveryAttempts : Z) (l : list log_line)
  (r : EventProcessingResult) (recovery : RecoveryInfo) :
  runWithStallRecovery codex events getThreadId maxRecoveryAttempts
  = (l, inr (r, recovery)) ->
  Z.of_nat (count_attempt_lines l) = attempts recovery
  /\ (0 <= maxRecoveryAttempts ->
      Z.of_nat (count_attempt_lines l) <= maxRecoveryAttempts).
Proof.
  intros Hrun.
  assert (Hcount : Z.of_nat (count_attempt_lines l) = attempts recovery).
  { destruct (processEventsWithStallDetection events) as [l0 [message|r0]]
      eqn:H0.
    - rewrite (runWithStallRecovery_rejects _ _ _ _ _ _ H0) in Hrun.
      discriminate.
    - pose proof (count_attempt_lines_pass _ _ _ H0) as Hl0.
      destruct (stalled r0 && JS.truthy (JS.or_else (threadId r0) getThreadId))
        eqn:Hcond.
      + apply andb_prop in Hcond. destruct Hcond as [Hst Htruthy].
        destruct (JS.or_else (threadId r0) getThreadId) as [tid|] eqn:Htid;
          [| discriminate].
        destruct (runWithStallRecovery_recovering codex events getThreadId
                    maxRecoveryAttempts l0 r0 tid H0 Hst Htid Htruthy)
          as (l' & s & Hloop & _ & Heq).
        rewrite Heq in Hrun. injection Hrun as <- _ <-.
        destruct (loop_turns_count codex tid maxRecoveryAttempts
                    (enough_turns maxRecoveryAttempts) (loop_entry r0))
          as (l2 & s2 & Hloop2 & _ & Hc).
        { split; cbn; [lia | reflexivity]. }
        rewrite Hloop in Hloop2. injection Hloop2 as <- <-.
        rewrite !count_attempt_lines_app, Hl0.
        cbn [loop_entry ls_recovery attempts] in Hc.
        destruct (recovered (ls_recovery s)); cbn; lia.
      + rewrite (runWithStallRecovery_no_recovery _ _ _ _ _ _ H0 Hcond)
          in Hrun.
        injection Hrun as <- _ <-. rewrite Hl0. reflexivity. }
  split; [exact Hcount |].
  intros Hmax. rewrite Hcount.
  now destruct (runWithStallRecovery_attempts_bound codex events getThreadId
                  maxRecoveryAttempts l r recovery Hmax Hrun) as ((_ & H) & _).
Qed.

Lemma recovery_attempts_counted_witness :
  Z.of_nat
    (count_attempt_lines
       (logged (runWithStallRecovery second_attempt_recovers stalled_run
                  None 5)))
  = 2.
Proof.
  exact (proj1 (recovery_attempts_counted second_attempt_recovers stalled_run
                  None 5 _ _
                  {| attempted := true; attempts := 2; recovered := true;
                     lastError :=
                       Some "Still stalled after recovery attempt" |}
                  eq_refl)).
Defined.

(** ** Exhausted and successful recovery *)

Lemma attempt_succeeds_eq
  (codex : Codex) (tid : string) (attempt maxAttempts : Z)
  (l : list log_line) (r : EventProcessingResult) (ok : bool) :
  attemptRecovery codex tid attempt maxAttempts = (l, inr (r, ok)) ->
  attempt_succeeds codex tid attempt maxAttempts = ok
  /\ attempt_result codex tid attempt maxAttempts = r.
Proof.
  intros H. unfold attempt_succeeds, attempt_result. now rewrite H.
Qed.

(** The loop when every attempt that the bound still allows fails. *)
Lemma loop_all_fail
  (codex : Codex) (tid : string) (maxAttempts : Z) (n : nat) :
  forall s,
    ls_exited s = false ->
    ls_attempt s <= maxAttempts + 1 ->
    attempts (ls_recovery s) = ls_attempt s - 1 ->
    (forall k, ls_attempt s <= k <= maxAttempts ->
       attempt_succeeds codex tid k maxAttempts = false) ->
    (Z.to_nat (maxAttempts + 1 - ls_attempt s) < n)%nat ->
    exists l,
      loop_turns codex tid maxAttempts n s
      = (l,
         inr {| ls_attempt := maxAttempts + 1;
                ls_result := ls_result s;
                ls_recovery :=
                  {| attempted := attempted (ls_recovery s);
                     attempts := maxAttempts;
                     recovered := recovered (ls_recovery s);
                     lastError :=
                       if maxAttempts <? ls_attempt s
                       then lastError (ls_recovery s)
                       else Some (JS.or_default
                                    (error (attempt_result codex tid
                                              maxAttempts maxAttempts))
                                    "Still stalled after recovery attempt") |};
                ls_exited := true |}).
Proof.
  induction n as [|n IH]; intros s Hex Hbound Hcount Hfail Hfuel; [lia |].
  cbn [loop_turns]. unfold loop_step. rewrite Hex.
  destruct (ls_attempt s <=? maxAttempts) eqn:Hle.
  - apply Z.leb_le in Hle.
    destruct (loop_body_total codex tid maxAttempts s)
      as (l & r & ok & Hatt & _ & Hb).
    destruct (attempt_succeeds_eq _ _ _ _ _ _ _ Hatt) as (Hok & Hres).
    rewrite (Hfail (ls_attempt s)) in Hok by lia. subst ok.
    rewrite Hb, bind_value.
    destruct (IH (after_failure tid s r)) as (l' & Hloop);
      cbn [after_failure ls_exited ls_attempt ls_recovery attempts]; auto;
      try lia.
    { intros k Hk. apply Hfail. lia. }
    rewrite Hloop. cbn [logged settled fst snd].
    eexists. f_equal. f_equal. f_equal.
    cbn [after_failure ls_result ls_recovery attempted recovered lastError
           ls_attempt].
    f_equal.
    destruct (maxAttempts <? ls_attempt s) eqn:H1; [apply Z.ltb_lt in H1; lia |].
    destruct (maxAttempts <? ls_attempt s + 1) eqn:H2; [| reflexivity].
    apply Z.ltb_lt in H2.
    assert (ls_attempt s = maxAttempts) as Heq by lia.
    rewrite Heq in Hres. now rewrite Hres.
  - apply Z.leb_gt in Hle. rewrite bind_ret.
    rewrite loop_turns_exited by reflexivity.
    eexists. f_equal. f_equal.
    assert (ls_attempt s = maxAttempts + 1) as Heq by lia.
    assert (Hlt : (maxAttempts <? ls_attempt s) = true)
      by (apply Z.ltb_lt; lia).
    rewrite Hlt.
    destruct s as [a res [att n0 rec le] ex]; cbn in *. subst.
    f_equal. f_equal. lia.
Qed.

(** X12: when the original pass stalled with a usable thread id and every
    attempt that [maxRecoveryAttempts >= 0] allows fails, all of them are
    tried: the orchestrator returns the original pass's result unchanged
    (still stalled) with [attempts = maxRecoveryAttempts],
    [recovered = false] and [lastError] from the last attempt, and the
    log ends with the "manual intervention" line. *)
Theorem recovery_exhausted
  (codex : Codex) (events : EventSource) (getThreadId : option string)
  (maxRecoveryAttempts : Z) (l0 : list log_line)
  (r0 : EventProcessingResult) (tid : string) :
  processEventsWithStallDetection events = (l0, inr r0) ->
  stalled r0 = true ->
  JS.or_else (threadId r0) getThreadId = Some tid ->
  JS.truthy (Some tid) = true ->
  0 <= maxRecoveryAttempts ->
  (forall k, 1 <= k <= maxRecoveryAttempts ->
     attempt_succeeds codex tid k maxRecoveryAttempts = false) ->
  exists l,
    runWithStallRecovery codex events getThreadId maxRecoveryAttempts
    = (l0 ++ l ++ [LogAllRecoveryFailed],
       inr (r0,
            {| attempted := true;
               attempts := maxRecoveryAttempts;
               recovered := false;
               lastError :=
                 if maxRecoveryAttempts <? 1 then None
                 else Some (JS.or_default
                              (error (attempt_result codex tid
                                        maxRecoveryAttempts
                                        maxRecoveryAttempts))
                              "Still stalled after recovery attempt") |}))
    /\ Z.of_nat (count_attempt_lines l) = maxRecoveryAttempts.
Proof.
  intros H0 Hst Htid Htruthy Hmax Hfail.
  destruct (loop_all_fail codex tid maxRecoveryAttempts
              (enough_turns maxRecoveryAttempts) (loop_entry r0))
    as (l & Hloop); cbn [loop_entry ls_exited ls_attempt ls_recovery attempts];
    auto; try lia.
  { unfold enough_turns. lia. }
  destruct (runWithStallRecovery_recovering codex events getThreadId
              maxRecoveryAttempts l0 r0 tid H0 Hst Htid Htruthy)
    as (l' & s & Hloop' & _ & Heq).
  rewrite Hloop in Hloop'. injection Hloop' as <- <-.
  cbn [ls_recovery recovered ls_result loop_entry attempted lastError
         ls_attempt] in Heq.
  exists l. split; [exact Heq |].
  destruct (loop_turns_count codex tid maxRecoveryAttempts
              (enough_turns maxRecoveryAttempts) (loop_entry r0))
    as (l2 & s2 & Hloop2 & _ & Hc).
  { split; cbn; [lia | reflexivity]. }
  rewrite Hloop in Hloop2. injection Hloop2 as <- <-.
  cbn in Hc. lia.
Qed.

Lemma recovery_exhausted_witness :
  exists l,
    runWithStallRecovery resume_unreachable stalled_run None 3
    = ([LogThreadStarted "X"; LogItemCompleted item_A;
        LogItemCompleted item_B; LogStallDetected]
         ++ l ++ [LogAllRecoveryFailed],
       inr (package
              {| l_items := [item_A; item_B]; l_threadId := Some "X";
                 l_finalResponse := ""; l_usage := None |} true,
            {| attempted := true; attempts := 3; recovered := false;
               lastError := Some "task unreachable" |})).
Proof.
  destruct (recovery_exhausted resume_unreachable stalled_run None 3
              _ _ "X" eq_refl eq_refl eq_refl eq_refl
              (Pos2Z.is_nonneg 3) (fun k _ => eq_refl))
    as (l & H & _).
  exists l. exact H.
Defined.

Lemma attemptRecovery_success
  (codex : Codex) (tid : string) (attempt maxAttempts : Z)
  (l : list log_line) (r : EventProcessingResult) :
  attemptRecovery codex tid attempt maxAttempts = (l, inr (r, true)) ->
  stalled r = false /\ error r = None.
Proof.
  intros H.
  destruct (attemptRecovery_cases codex tid maxAttempts attempt)
    as [(m & l1 & _ & H1) | [(ev & l1 & r1 & _ & _ & _ & H1)
                            | (ev & l1 & r1 & _ & Hp & Hs & H1)]];
    rewrite H1 in H; try discriminate.
  injection H as _ <-. split; [exact Hs |].
  eapply consume_error_unset. exact Hp.
Qed.

Lemma loop_step_adopt_inv
  (codex : Codex) (tid : string) (maxAttempts : Z)
  (r0 : EventProcessingResult) (s : LoopState) :
  adopt_inv codex tid maxAttempts r0 s ->
  exists l s',
    loop_step codex tid maxAttempts s = (l, inr s')
    /\ adopt_inv codex tid maxAttempts r0 s'.
Proof.
  intros (Hrun & Hdone). unfold loop_step.
  destruct (ls_exited s) eqn:Hex.
  - exists [], s. split; [reflexivity |]. split; [congruence | exact Hdone].
  - destruct (Hrun eq_refl) as (Hres & Hrec).
    destruct (ls_attempt s <=? maxAttempts).
    + destruct (loop_body_total codex tid maxAttempts s)
        as (l & r & ok & Hatt & _ & Hb).
      rewrite Hb. eexists; eexists; split; [reflexivity |].
      destruct (attempt_succeeds_eq _ _ _ _ _ _ _ Hatt) as (_ & Hpass).
      destruct ok.
      * destruct (attemptRecovery_success _ _ _ _ _ _ Hatt) as (Hs & He).
        split; [discriminate |]. intros _.
        cbn [after_success ls_result ls_recovery attempts]. cbv zeta.
        rewrite Hpass, Hres, Hs, He. reflexivity.
      * split; cbn [after_failure ls_exited ls_result ls_recovery recovered].
        -- auto.
        -- congruence.
    + eexists; eexists; split; [reflexivity |].
      split; cbn [ls_exited ls_result ls_recovery]; [discriminate | congruence].
Qed.

(** X13: after a successful recovery the orchestrator's result is not
    stalled and carries no error, its thread id is the one that was
    resumed (the id seen in the original stream if there is a non-empty
    one, the caller's otherwise), its items are the original ones followed
    by the successful pass's, and its [finalResponse] and [usage] are
    those of the successful pass alone: a final message of the original
    pass is not kept as [finalResponse]. *)
Theorem recovery_adopts_successful_pass
  (codex : Codex) (events : EventSource) (getThreadId : option string)
  (maxRecoveryAttempts : Z) (l : list log_line)
  (r : EventProcessingResult) (recovery : RecoveryInfo) :
  runWithStallRecovery codex events getThreadId maxRecoveryAttempts
  = (l, inr (r, recovery)) ->
  recovered recovery = true ->
  exists l0 r0 tid,
    processEventsWithStallDetection events = (l0, inr r0)
    /\ JS.or_else (threadId r0) getThreadId = Some tid
    /\ tid <> ""
    /\ r = (let pass :=
              attempt_result codex tid (attempts recovery)
                maxRecoveryAttempts in
            {| items := items r0 ++ items pass;
               threadId := Some tid;
               finalResponse := finalResponse pass;
               usage := usage pass;
               stalled := false;
               error := None |}).
Proof.
  intros Hrun Hrec.
  destruct (processEventsWithStallDetection events) as [l0 [message|r0]] eqn:H0.
  - rewrite (runWithStallRecovery_rejects _ _ _ _ _ _ H0) in Hrun.
    discriminate.
  - destruct (stalled r0 && JS.truthy (JS.or_else (threadId r0) getThreadId))
      eqn:Hcond.
    + apply andb_prop in Hcond. destruct Hcond as [Hst Htruthy].
      destruct (JS.or_else (threadId r0) getThreadId) as [tid|] eqn:Htid;
        [| discriminate].
      exists l0, r0, tid. split; [reflexivity |]. split; [exact Htid |].
      split.
      { intros ->. discriminate Htruthy. }
      destruct (runWithStallRecovery_recovering codex events getThreadId
                  maxRecoveryAttempts l0 r0 tid H0 Hst Htid Htruthy)
        as (l' & s & Hloop & _ & Heq).
      rewrite Heq in Hrun. injection Hrun as _ <- <-.
      destruct (loop_turns_preserves codex tid maxRecoveryAttempts
                  (adopt_inv codex tid maxRecoveryAttempts r0)
                  (loop_step_adopt_inv codex tid maxRecoveryAttempts r0)
                  (enough_turns maxRecoveryAttempts) (loop_entry r0))
        as (l2 & s2 & Hloop2 & Hinv).
      { split; cbn; [auto | discriminate]. }
      rewrite Hloop in Hloop2. injection Hloop2 as _ <-.
      destruct Hinv as (_ & Hdone). exact (Hdone Hrec).
    + rewrite (runWithStallRecovery_no_recovery _ _ _ _ _ _ H0 Hcond) in Hrun.
      injection Hrun as _ _ <-. discriminate Hrec.
Qed.

Lemma recovery_adopts_successful_pass_witness :
  exists l r recovery,
    runWithStallRecovery recovers_silently
      (stalls_after
         [ThreadStarted "X"; ItemCompleted (AgentMessage "half way")] [])
      None 2
    = (l, inr (r, recovery))
    /\ items r = [AgentMessage "half way"]
    /\ finalResponse r = "".
Proof.
  eexists; eexists; eexists. split; [reflexivity |].
  destruct (recovery_adopts_successful_pass recovers_silently
              (stalls_after
                 [ThreadStarted "X"; ItemCompleted (AgentMessage "half way")]
                 [])
              None 2 _ _ _ eq_refl eq_refl)
    as (l0 & r0 & tid & H0 & Htid & _ & Hr).
  injection H0 as _ <-. injection Htid as <-.
  split; [reflexivity |].
  exact (f_equal finalResponse Hr).
Defined.

Lemma loop_step_attempted
  (codex : Codex) (tid : string) (maxAttempts : Z) (s : LoopState) :
  attempted (ls_recovery s) = true ->
  exists l s',
    loop_step codex tid maxAttempts s = (l, inr s')
    /\ attempted (ls_recovery s') = true.
Proof.
  intros Hatt. unfold loop_step.
  destruct (ls_exited s); [eexists; eexists; split; [reflexivity | exact Hatt] |].
  destruct (ls_attempt s <=? maxAttempts).
  - destruct (loop_body_total codex tid maxAttempts s)
      as (l & r & ok & _ & _ & Hb).
    rewrite Hb. eexists; eexists; split; [reflexivity |].
    now destruct ok.
  - eexists; eexists; split; [reflexivity | exact Hatt].
Qed.

(** X14: the recovery branch is entered exactly when the original pass
    stalled and a non-empty thread id is known, the id seen in the stream
    being preferred to the caller's; otherwise the orchestrator returns
    the pass's result and log untouched, with the fresh record, and no
    resume is started. *)
Theorem recovery_entered_iff
  (codex : Codex) (events : EventSource) (getThreadId : option string)
  (maxRecoveryAttempts : Z) (l0 l : list log_line)
  (r0 r : EventProcessingResult) (recovery : RecoveryInfo) :
  processEventsWithStallDetection events = (l0, inr r0) ->
  runWithStallRecovery codex events getThreadId maxRecoveryAttempts
  = (l, inr (r, recovery)) ->
  attempted recovery
  = stalled r0 && JS.truthy (JS.or_else (threadId r0) getThreadId)
  /\ (attempted recovery = false ->
      l = l0 /\ r = r0 /\ recovery = fresh_recovery
      /\ count_attempt_lines l = 0%nat).
Proof.
  intros H0 Hrun.
  destruct (stalled r0 && JS.truthy (JS.or_else (threadId r0) getThreadId))
    eqn:Hcond.
  - apply andb_prop in Hcond. destruct Hcond as [Hst Htruthy].
    destruct (JS.or_else (threadId r0) getThreadId) as [tid|] eqn:Htid;
      [| discriminate].
    destruct (runWithStallRecovery_recovering codex events getThreadId
                maxRecoveryAttempts l0 r0 tid H0 Hst Htid Htruthy)
      as (l' & s & Hloop & _ & Heq).
    rewrite Heq in Hrun. injection Hrun as _ _ <-.
    destruct (loop_turns_preserves codex tid maxRecoveryAttempts
                (fun s => attempted (ls_recovery s) = true)
                (loop_step_attempted codex tid maxRecoveryAttempts)
                (enough_turns maxRecoveryAttempts) (loop_entry r0) eq_refl)
      as (l2 & s2 & Hloop2 & Hatt).
    rewrite Hloop in Hloop2. injection Hloop2 as _ <-.
    split; [exact Hatt | congruence].
  - rewrite (runWithStallRecovery_no_recovery _ _ _ _ _ _ H0 Hcond) in Hrun.
    injection Hrun as <- <- <-. split; [reflexivity |]. intros _.
    repeat split. exact (count_attempt_lines_pass _ _ _ H0).
Qed.

Lemma recovery_entered_iff_witness :
  attempted fresh_recovery
  = stalled (package initial_locals true)
    && JS.truthy (JS.or_else (threadId (package initial_locals true)) (Some "")).
Proof.
  exact (proj1 (recovery_entered_iff resume_unreachable [TimerWins] (Some "")
                  2 _ _ _ _ _ eq_refl eq_refl)).
Defined.

(** ** The answers of the tools *)

Lemma terminal_rejects (events : EventSource) (message : string) :
  terminal events = Some (Rejects message) ->
  exists rest, events = rejects_after (delivered events) message rest.
Proof.
  induction events as [|s events IH]; [discriminate |].
  destruct s as [e|m|]; cbn [terminal delivered]; intros H.
  - destruct (IH H) as (rest & Heq). exists rest.
    unfold rejects_after in *. cbn [map app]. now rewrite <- Heq.
  - injection H as ->. now exists events.
  - discriminate.
Qed.

Lemma processEvents_rejected_raises
  (events : EventSource) (l : list log_line) (message : string) :
  processEventsWithStallDetection events = (l, inl message) ->
  l = map event_line (delivered events)
  /\ exists rest, events = rejects_after (delivered events) message rest.
Proof.
  unfold processEventsWithStallDetection. rewrite consume_spec.
  pose proof (terminal_rejects events) as Hrej.
  destruct (terminal events) as [[e|m|]|]; intros H; try discriminate.
  injection H as <- <-. split; [reflexivity | now apply Hrej].
Qed.

Lemma determineResultLevel_no_error_cases
  (its : list ThreadItem) (errorMessage : option string) :
  determineResultLevel its false errorMessage = PASS
  \/ determineResultLevel its false errorMessage = FAIL.
Proof.
  unfold determineResultLevel. cbv zeta.
  destruct (existsb _ its); [now left |].
  destruct (_ || _); auto.
Qed.

(** The two ways the [run] tool answers. *)
Lemma run_tool_cases (codex : Codex) (maxAttempts : Z) :
  (exists evs message,
      raises (original_run codex) evs message
      /\ run_tool codex maxAttempts
         = (LogStartingSession :: map event_line evs
              ++ [LogError message; LogResult (fst (error_answer message))],
            inr (error_answer message)))
  \/ (exists events l r recovery,
         original_run codex = inr events
         /\ runWithStallRecovery codex events None maxAttempts
            = (l, inr (r, recovery))
         /\ run_tool codex maxAttempts
            = (LogStartingSession :: l
                 ++ logged (report r recovery (threadId r)),
               settled (report r recovery (threadId r)))).
Proof.
  destruct (original_run codex) as [message|events] eqn:Ho.
  - left. exists [], message. split; [left; auto |].
    now rewrite (run_tool_refused codex maxAttempts message Ho).
  - destruct (processEventsWithStallDetection events) as [l0 [message|r0]]
      eqn:Hp.
    + left. destruct (processEvents_rejected_raises _ _ _ Hp) as (-> & rest & He).
      exists (delivered events), message. split; [right; exists rest; congruence |].
      now rewrite (run_tool_rejected codex maxAttempts events _ message Ho Hp).
    + right.
      destruct (runWithStallRecovery_total codex events None maxAttempts
                  l0 r0 Hp) as (l1 & r1 & rec1 & H1).
      exists events, l1, r1, rec1. repeat split; auto.
      now apply run_tool_returned with (events := events).
Qed.

(** The two ways the [reply] tool answers. *)
Lemma reply_tool_cases (codex : Codex) (tid : string) (maxAttempts : Z) :
  (exists evs message,
      raises (original_run codex) evs message
      /\ reply_tool codex tid maxAttempts
         = (LogResumingSession :: map event_line evs
              ++ [LogError message; LogResult (fst (error_answer message))],
            inr (error_answer message)))
  \/ (exists events l r recovery,
         original_run codex = inr events
         /\ runWithStallRecovery codex events (Some tid) maxAttempts
            = (l, inr (r, recovery))
         /\ reply_tool codex tid maxAttempts
            = (LogResumingSession :: l
                 ++ logged (report r recovery (Some tid)),
               settled (report r recovery (Some tid)))).
Proof.
  destruct (original_run codex) as [message|events] eqn:Ho.
  - left. exists [], message. split; [left; auto |].
    now rewrite (reply_tool_refused codex maxAttempts tid message Ho).
  - destruct (processEventsWithStallDetection events) as [l0 [message|r0]]
      eqn:Hp.
    + left. destruct (processEvents_rejected_raises _ _ _ Hp) as (-> & rest & He).
      exists (delivered events), message. split; [right; exists rest; congruence |].
      now rewrite (reply_tool_rejected codex maxAttempts tid events _ message
                     Ho Hp).
    + right.
      destruct (runWithStallRecovery_total codex events (Some tid) maxAttempts
                  l0 r0 Hp) as (l1 & r1 & rec1 & H1).
      exists events, l1, r1, rec1. repeat split; auto.
      now apply reply_tool_returned with (events := events).
Qed.

(** What [report] and [report_error] answer. *)
Lemma report_answer
  (result : EventProcessingResult) (recovery : RecoveryInfo)
  (reported : option string) :
  exists level summary,
    report result recovery reported
    = ([LogSessionComplete; LogResult level],
       inr (level, SummaryResponse summary))
    /\ (level = PASS \/ level = FAIL \/ level = TIMEOUT)
    /\ (needsUserInput summary = true <-> level = TIMEOUT)
    /\ (keepsProgressLog summary = false <-> level = PASS)
    /\ (commands (stats summary) + fileChanges (stats summary)
        + mcpCalls (stats summary) <= totalItems (stats summary))%nat
    /\ sum_threadId summary = reported.
Proof.
  eexists; eexists. split; [reflexivity |].
  cbn [needsUserInput keepsProgressLog stats commands fileChanges mcpCalls
         totalItems sum_threadId].
  split; [| split; [| split; [| split; [| reflexivity]]]].
  - destruct (stalled result && negb (recovered recovery)); [auto |].
    destruct (determineResultLevel_no_error_cases (items result) None)
      as [-> | ->]; auto.
  - destruct (stalled result && negb (recovered recovery));
      [split; reflexivity |].
    destruct (determineResultLevel_no_error_cases (items result) None)
      as [-> | ->]; split; discriminate.
  - destruct (stalled result && negb (recovered recovery));
      [split; discriminate |].
    destruct (determineResultLevel_no_error_cases (items result) None)
      as [-> | ->]; split; auto; discriminate.
  - induction (items result) as [|i its IH]; [cbn; lia |].
    destruct i; cbn in *; lia.
Qed.


Lemma error_answer_coherent (message : string) :
  coherent_answer (error_answer message).
Proof.
  unfold coherent_answer, error_answer. cbn [fst snd].
  apply determineResultLevel_error_cases.
Qed.

Lemma report_coherent
  (result : EventProcessingResult) (recovery : RecoveryInfo)
  (reported : option string) :
  exists answer,
    settled (report result recovery reported) = inr answer
    /\ coherent_answer answer /\ consistent_counts answer.
Proof.
  destruct (report_answer result recovery reported)
    as (level & s & Hrep & Hl & Hn & Hk & Hc & _).
  rewrite Hrep. exists (level, SummaryResponse s).
  split; [reflexivity |]. split; [| exact Hc].
  unfold coherent_answer. cbn [fst snd]. auto.
Qed.

Lemma run_tool_resolves (codex : Codex) (maxAttempts : Z) :
  exists l answer,
    run_tool codex maxAttempts = (l, inr answer)
    /\ coherent_answer answer /\ consistent_counts answer.
Proof.
  destruct (run_tool_cases codex maxAttempts)
    as [(evs & m & _ & H) | (ev & l & r & rec & _ & _ & H)]; rewrite H.
  - eexists; eexists. split; [reflexivity |].
    split; [apply error_answer_coherent | exact I].
  - destruct (report_coherent r rec (threadId r)) as (a & Ha & Hco & Hcn).
    rewrite Ha. eauto.
Qed.

Lemma reply_tool_resolves (codex : Codex) (caller : string) (maxAttempts : Z) :
  exists l answer,
    reply_tool codex caller maxAttempts = (l, inr answer)
    /\ coherent_answer answer /\ consistent_counts answer.
Proof.
  destruct (reply_tool_cases codex caller maxAttempts)
    as [(evs & m & _ & H) | (ev & l & r & rec & _ & _ & H)]; rewrite H.
  - eexists; eexists. split; [reflexivity |].
    split; [apply error_answer_coherent | exact I].
  - destruct (report_coherent r rec (Some caller)) as (a & Ha & Hco & Hcn).
    rewrite Ha. eauto.
Qed.

(** X16: the level a tool logs and its response go together: a summary
    comes with [PASS], [FAIL] or [TIMEOUT] only, asks for user input
    exactly when the level is [TIMEOUT] and drops the progress log exactly
    when it is [PASS]; an error response comes with [TIMEOUT] or [ERROR]
    only. *)
Theorem tool_answer_coherent
  (codex : Codex) (caller : string) (maxAttempts : Z)
  (l : list log_line) (answer : ResultLevel * Response) :
  run_tool codex maxAttempts = (l, inr answer)
  \/ reply_tool codex caller maxAttempts = (l, inr answer) ->
  coherent_answer answer.
Proof.
  intros [H | H].
  - destruct (run_tool_resolves codex maxAttempts) as (l' & a & Ha & Hco & _).
    rewrite Ha in H. now injection H as _ <-.
  - destruct (reply_tool_resolves codex caller maxAttempts)
      as (l' & a & Ha & Hco & _).
    rewrite Ha in H. now injection H as _ <-.
Qed.

Lemma tool_answer_coherent_witness :
  coherent_answer
    (TIMEOUT,
     ErrorResponse "Codex Exec exited with code 1: request timeout after 30s").
Proof.
  exact (tool_answer_coherent times_out_early "X" 2 _ _ (or_introl eq_refl)).
Defined.

(** X17: in a summary the numbers of commands, file changes and tool calls
    never add up to more than the total number of items. *)
Theorem summary_counts_consistent
  (codex : Codex) (caller : string) (maxAttempts : Z)
  (l : list log_line) (answer : ResultLevel * Response) :
  run_tool codex maxAttempts = (l, inr answer)
  \/ reply_tool codex caller maxAttempts = (l, inr answer) ->
  consistent_counts answer.
Proof.
  intros [H | H].
  - destruct (run_tool_resolves codex maxAttempts) as (l' & a & Ha & _ & Hc).
    rewrite Ha in H. now injection H as _ <-.
  - destruct (reply_tool_resolves codex caller maxAttempts)
      as (l' & a & Ha & _ & Hc).
    rewrite Ha in H. now injection H as _ <-.
Qed.

Lemma summary_counts_consistent_witness :
  consistent_counts
    (PASS,
     SummaryResponse
       {| sum_threadId := Some "X";
          content := "resumed and finished";
          keepsProgressLog := false;
          stats := {| totalItems := 3; commands := 2; fileChanges := 0;
                      mcpCalls := 0; stats_usage := None |};
          filesModified := [];
          sum_recovery :=
            Some {| attempted := true; attempts := 2; recovered := true;
                    lastError :=
                      Some "Still stalled after recovery attempt" |};
          needsUserInput := false |}).
Proof.
  exact (summary_counts_consistent second_attempt_recovers "X" 2 _ _
           (or_introl eq_refl)).
Defined.

(** X18: a tool answers with an error response exactly when the original
    run raises (acquiring the stream fails or the stream rejects); the
    response then quotes the raised message.  Whatever happens inside
    recovery attempts never turns the answer into an error response. *)
Theorem error_response_iff_original_raises
  (codex : Codex) (caller : string) (maxAttempts : Z) (text : string) :
  ((exists l level,
       run_tool codex maxAttempts = (l, inr (level, ErrorResponse text)))
   <-> exists evs message,
         raises (original_run codex) evs message
         /\ text = ("Codex Exec exited with code 1: " ++ message)%string)
  /\ ((exists l level,
          reply_tool codex caller maxAttempts
          = (l, inr (level, ErrorResponse text)))
      <-> exists evs message,
            raises (original_run codex) evs message
            /\ text = ("Codex Exec exited with code 1: " ++ message)%string).
Proof.
  split; split.
  - intros (l & level & H).
    destruct (run_tool_cases codex maxAttempts)
      as [(evs & m & Hr & H') | (ev & l' & r & rec & _ & _ & H')];
      rewrite H' in H.
    + injection H as _ _ <-. eauto.
    + destruct (report_answer r rec (threadId r)) as (lv & s & Hrep & _).
      rewrite Hrep in H. discriminate.
  - intros (evs & m & Hr & ->).
    destruct (raises_processEvents _ _ _ Hr) as [(H & ->) | (events & H & Hp)].
    + rewrite (run_tool_refused codex maxAttempts m H).
      eexists; eexists; reflexivity.
    + rewrite (run_tool_rejected codex maxAttempts events _ m H Hp).
      eexists; eexists; reflexivity.
  - intros (l & level & H).
    destruct (reply_tool_cases codex caller maxAttempts)
      as [(evs & m & Hr & H') | (ev & l' & r & rec & _ & _ & H')];
      rewrite H' in H.
    + injection H as _ _ <-. eauto.
    + destruct (report_answer r rec (Some caller)) as (lv & s & Hrep & _).
      rewrite Hrep in H. discriminate.
  - intros (evs & m & Hr & ->).
    destruct (raises_processEvents _ _ _ Hr) as [(H & ->) | (events & H & Hp)].
    + rewrite (reply_tool_refused codex maxAttempts caller m H).
      eexists; eexists; reflexivity.
    + rewrite (reply_tool_rejected codex maxAttempts caller events _ m H Hp).
      eexists; eexists; reflexivity.
Qed.

Lemma error_response_iff_original_raises_witness :
  exists evs message,
    raises (original_run times_out_early) evs message
    /\ "Codex Exec exited with code 1: request timeout after 30s"
       = ("Codex Exec exited with code 1: " ++ message)%string.
Proof.
  refine (proj1 (proj1 (error_response_iff_original_raises times_out_early
                          "X" 2 _)) _).
  eexists; eexists; reflexivity.
Defined.

(** ** Tool dispatch *)



(** X20: an explicit [maxRecoveryAttempts] of 0 is honoured rather than
    replaced by the default: when the run stalls after a non-empty thread
    id was seen, no resume is started, the call is filed under the
    effective level and answered with [TIMEOUT] and [needsUserInput], and
    the summary still carries a recovery record, with [attempted = true]
    and [attempts = 0]. *)
Theorem callTool_zero_attempts
  (codex : Codex) (args : ToolArgs) (evs : list ThreadEvent)
  (rest : EventSource) (tid : string) :
  arg_maxRecoveryAttempts args = Some 0 ->
  original_run codex = inr (stalls_after evs rest) ->
  last_thread_started evs = Some tid ->
  tid <> "" ->
  exists summary,
    callTool codex "run" args
    = (LogStartingSession :: map event_line evs
         ++ [LogStallDetected; LogAllRecoveryFailed; LogSessionComplete;
             LogResult TIMEOUT],
       inr (effectiveLevel args, (TIMEOUT, SummaryResponse summary)))
    /\ needsUserInput summary = true
    /\ sum_threadId summary = Some tid
    /\ sum_recovery summary
       = Some {| attempted := true; attempts := 0; recovered := false;
                 lastError := None |}.
Proof.
  intros Hzero Ho Hlast Hne.
  pose (r0 := package (after_events evs initial_locals) true).
  assert (Hp : processEventsWithStallDetection (stalls_after evs rest)
               = (map event_line evs ++ [LogStallDetected], inr r0))
    by apply processEvents_stalls.
  assert (Hid : threadId r0 = Some tid)
    by (unfold r0; now rewrite last_thread_started_result).
  assert (Htruthy : JS.truthy (Some tid) = true).
  { cbn. apply Bool.negb_true_iff. now apply String.eqb_neq. }
  assert (Htid : JS.or_else (threadId r0) None = Some tid).
  { unfold JS.or_else. now rewrite Hid, Htruthy. }
  destruct (runWithStallRecovery_recovering codex (stalls_after evs rest) None
              0 _ r0 tid Hp eq_refl Htid Htruthy)
    as (l' & s & Hloop & _ & Hrun).
  cbn in Hloop. injection Hloop as <- <-.
  cbn [ls_recovery recovered loop_entry ls_result app] in Hrun.
  destruct (report_spec r0
              {| attempted := true; attempts := 0; recovered := false;
                 lastError := None |} (threadId r0))
    as (summary & Hrep & Hsid & _ & _ & Hrec & Hneeds).
  cbv zeta in Hrep, Hneeds. cbn in Hrec, Hneeds.
  exists summary. split; [| rewrite Hsid; auto].
  unfold callTool. cbn [String.eqb Ascii.eqb Bool.eqb].
  unfold effectiveMaxAttempts. rewrite Hzero.
  rewrite (run_tool_returned codex 0 _ _ _ _ Ho Hrun), Hrep.
  cbn [logged settled fst snd]. rewrite bind_value.
  cbn [ret logged settled fst snd]. rewrite app_nil_r, <- !app_assoc.
  reflexivity.
Qed.

Lemma callTool_zero_attempts_witness :
  exists summary,
    callTool resume_unreachable "run"
      {| arg_threadId := ""; arg_level := Some "";
         arg_maxRecoveryAttempts := Some 0 |}
    = ([LogStartingSession; LogThreadStarted "X"; LogItemCompleted item_A;
        LogItemCompleted item_B; LogStallDetected; LogAllRecoveryFailed;
        LogSessionComplete; LogResult TIMEOUT],
       inr ("L2", (TIMEOUT, SummaryResponse summary)))
    /\ needsUserInput summary = true.
Proof.
  destruct (callTool_zero_attempts resume_unreachable
              {| arg_threadId := ""; arg_level := Some "";
                 arg_maxRecoveryAttempts := Some 0 |}
              [ThreadStarted "X"; ItemCompleted item_A; ItemCompleted item_B]
              [] "X" eq_refl eq_refl eq_refl)
    as (summary & H & Hn & _).
  { discriminate. }
  exists summary. split; [exact H | exact Hn].
Defined.

(** ** The last error of the recovery record *)

Lemma or_default_nonempty (v : option string) (d : string) :
  d <> "" -> JS.or_default v d <> "".
Proof.
  intros Hd. unfold JS.or_default. destruct v as [s|]; [| exact Hd].
  destruct (String.eqb_spec s ""); auto.
Qed.

Lemma loop_step_last_error
  (codex : Codex) (tid : string) (maxAttempts : Z) (s : LoopState) :
  last_error_inv s ->
  exists l s',
    loop_step codex tid maxAttempts s = (l, inr s') /\ last_error_inv s'.
Proof.
  intros (Hpos & Hrun & Hne & Hnone). unfold loop_step.
  destruct (ls_exited s) eqn:Hex.
  - exists [], s. split; [reflexivity |].
    unfold last_error_inv. rewrite Hex. repeat split; auto; try discriminate;
      apply Hnone.
  - destruct (Hrun eq_refl) as (Hrec & Hcount).
    destruct (ls_attempt s <=? maxAttempts).
    + destruct (loop_body_total codex tid maxAttempts s)
        as (l & r & ok & _ & _ & Hb).
      rewrite Hb. eexists; eexists; split; [reflexivity |].
      destruct ok; unfold last_error_inv; cbn.
      * split; [lia |]. split; [discriminate |]. split; [exact Hne |].
        rewrite Hnone, Hrec. split.
        -- intros [H | (H & _)]; [right; split; [reflexivity | lia]
                                 | discriminate].
        -- intros [H | (_ & H)]; [lia | left; lia].
      * split; [lia |]. split; [intros _; split; [exact Hrec | lia] |]. split.
        -- intros H. injection H as H'.
           now apply (or_default_nonempty (error r)
                        "Still stalled after recovery attempt").
        -- rewrite Hrec. split; [discriminate |].
           intros [H | (H & _)]; [lia | discriminate].
    + eexists; eexists; split; [reflexivity |].
      unfold last_error_inv; cbn.
      split; [exact Hpos |]. split; [discriminate |]. split; [exact Hne |].
      exact Hnone.
Qed.

(** X21: in the record that the orchestrator returns, [lastError] is
    present exactly when at least one attempt failed (some attempt ran,
    and it was not a first attempt that succeeded), and it is never the
    empty string: an empty raised message is replaced by the "still
    stalled" text. *)
Theorem recovery_last_error
  (codex : Codex) (events : EventSource) (getThreadId : option string)
  (maxRecoveryAttempts : Z) (l : list log_line)
  (r : EventProcessingResult) (recovery : RecoveryInfo) :
  runWithStallRecovery codex events getThreadId maxRecoveryAttempts
  = (l, inr (r, recovery)) ->
  lastError recovery <> Some ""
  /\ (lastError recovery = None
      <-> attempts recovery = 0
          \/ (recovered recovery = true /\ attempts recovery = 1)).
Proof.
  intros Hrun.
  destruct (processEventsWithStallDetection events) as [l0 [message|r0]] eqn:H0.
  - rewrite (runWithStallRecovery_rejects _ _ _ _ _ _ H0) in Hrun.
    discriminate.
  - destruct (stalled r0 && JS.truthy (JS.or_else (threadId r0) getThreadId))
      eqn:Hcond.
    + apply andb_prop in Hcond. destruct Hcond as [Hst Htruthy].
      destruct (JS.or_else (threadId r0) getThreadId) as [tid|] eqn:Htid;
        [| discriminate].
      destruct (runWithStallRecovery_recovering codex events getThreadId
                  maxRecoveryAttempts l0 r0 tid H0 Hst Htid Htruthy)
        as (l' & s & Hloop & _ & Heq).
      rewrite Heq in Hrun. injection Hrun as _ _ <-.
      destruct (loop_turns_preserves codex tid maxRecoveryAttempts
                  last_error_inv
                  (loop_step_last_error codex tid maxRecoveryAttempts)
                  (enough_turns maxRecoveryAttempts) (loop_entry r0))
        as (l2 & s2 & Hloop2 & Hinv).
      { unfold last_error_inv; cbn. repeat split; auto; try lia;
          try discriminate. }
      rewrite Hloop in Hloop2. injection Hloop2 as _ <-.
      destruct Hinv as (_ & _ & Hne & Hnone). auto.
    + rewrite (runWithStallRecovery_no_recovery _ _ _ _ _ _ H0 Hcond) in Hrun.
      injection Hrun as _ _ <-. cbn. split; [discriminate |].
      split; auto.
Qed.

Lemma recovery_last_error_witness :
  lastError
    {| attempted := true; attempts := 2; recovered := false;
       lastError := Some "Still stalled after recovery attempt" |}
  <> Some "".
Proof.
  exact (proj1 (recovery_last_error
                  {| original_run := inr stalled_run;
                     recovery_run := fun _ _ => inl "" |}
                  stalled_run None 2 _ _ _ eq_refl)).
Defined.

Lemma determineResultLevel_fail_iff_witness :
  determineResultLevel
    [item_A; FileChange [("update", "a.ts")] "failed"] false None
  = FAIL.
Proof.
  refine (proj2 (proj1 (determineResultLevel_fail_iff
                          [item_A; FileChange [("update", "a.ts")] "failed"]
                          None)) _).
  split.
  - intros (text & [H | [H | []]]); discriminate H.
  - right. exists [("update", "a.ts")]. right. now left.
Defined.

(* ================================================================== *)
(** * The course of the recovery loop *)

Lemma attempt_items_result
  (codex : Codex) (tid : string) (attempt maxAttempts : Z) :
  attempt_items codex tid attempt maxAttempts
  = items (attempt_result codex tid attempt maxAttempts).
Proof.
  unfold attempt_items, attempt_result.
  now destruct (settled (attemptRecovery codex tid attempt maxAttempts)).
Qed.

(** One turn of a loop that has not been left: the body runs when the
    bound allows, and what it leaves is decided by whether the attempt
    succeeds. *)
Lemma loop_step_running
  (codex : Codex) (tid : string) (maxAttempts : Z) (s : LoopState) :
  ls_exited s = false ->
  exists l,
    loop_step codex tid maxAttempts s
    = (l,
       inr (if ls_attempt s <=? maxAttempts then
              if attempt_succeeds codex tid (ls_attempt s) maxAttempts
              then after_success tid s
                     (attempt_result codex tid (ls_attempt s) maxAttempts)
              else after_failure tid s
                     (attempt_result codex tid (ls_attempt s) maxAttempts)
            else {| ls_attempt := ls_attempt s; ls_result := ls_result s;
                    ls_recovery := ls_recovery s; ls_exited := true |}))
    /\ ((ls_attempt s <=? maxAttempts) = false -> l = [])
    /\ ((ls_attempt s <=? maxAttempts) = true ->
        count_attempt_lines l = 1%nat).
Proof.
  intros Hex. unfold loop_step. rewrite Hex.
  destruct (ls_attempt s <=? maxAttempts).
  - destruct (loop_body_total codex tid maxAttempts s)
      as (l & r & ok & Hatt & _ & Hb).
    destruct (attempt_succeeds_eq _ _ _ _ _ _ _ Hatt) as (-> & ->).
    rewrite Hb. eexists. split; [reflexivity |]. split; [discriminate |].
    intros _.
    pose proof (attemptRecovery_one_line codex tid (ls_attempt s) maxAttempts)
      as Hone.
    now rewrite Hatt in Hone.
  - exists []. repeat split. discriminate.
Qed.

(** A loop that was left without a recovery was left by its condition. *)
Lemma loop_step_left_by_bound
  (codex : Codex) (tid : string) (maxAttempts : Z) (s : LoopState) :
  (ls_exited s = true -> recovered (ls_recovery s) = false ->
   maxAttempts < ls_attempt s) ->
  exists l s',
    loop_step codex tid maxAttempts s = (l, inr s')
    /\ (ls_exited s' = true -> recovered (ls_recovery s') = false ->
        maxAttempts < ls_attempt s').
Proof.
  intros Hinv. destruct (ls_exited s) eqn:Hex.
  - rewrite (loop_step_exited codex tid maxAttempts s Hex).
    exists [], s. split; [reflexivity |]. now rewrite Hex.
  - destruct (loop_step_running codex tid maxAttempts s Hex) as (l & H & _).
    rewrite H. eexists; eexists; split; [reflexivity |].
    destruct (ls_attempt s <=? maxAttempts) eqn:Hle.
    + destruct (attempt_succeeds codex tid (ls_attempt s) maxAttempts);
        cbn; intros; discriminate.
    + cbn. intros _ _. now apply Z.leb_gt.
Qed.

(** Every state of the loop that starts from [loop_entry r0] satisfies
    the invariants of the loop. *)
Lemma loop_states
  (codex : Codex) (tid : string) (maxAttempts : Z)
  (r0 : EventProcessingResult) (n : nat) :
  exists l s,
    loop_turns codex tid maxAttempts n (loop_entry r0) = (l, inr s)
    /\ merge_inv codex tid maxAttempts r0 s
    /\ adopt_inv codex tid maxAttempts r0 s
    /\ attempted (ls_recovery s) = true
    /\ (ls_exited s = true -> recovered (ls_recovery s) = false ->
        maxAttempts < ls_attempt s)
    /\ (0 <= maxAttempts -> loop_inv maxAttempts s).
Proof.
  destruct (loop_turns_preserves codex tid maxAttempts
              (merge_inv codex tid maxAttempts r0)
              (loop_step_merge_inv codex tid maxAttempts r0)
              n (loop_entry r0)
              (loop_entry_merge_inv codex tid maxAttempts r0))
    as (l & s & Hloop & Hmerge).
  exists l, s. split; [exact Hloop |]. split; [exact Hmerge |].
  split; [| split; [| split]].
  - destruct (loop_turns_preserves codex tid maxAttempts
                (adopt_inv codex tid maxAttempts r0)
                (loop_step_adopt_inv codex tid maxAttempts r0)
                n (loop_entry r0))
      as (l2 & s2 & Hloop2 & Hinv).
    { split; cbn; [auto | discriminate]. }
    rewrite Hloop in Hloop2. now injection Hloop2 as _ <-.
  - destruct (loop_turns_preserves codex tid maxAttempts
                (fun s => attempted (ls_recovery s) = true)
                (loop_step_attempted codex tid maxAttempts)
                n (loop_entry r0) eq_refl)
      as (l2 & s2 & Hloop2 & Hinv).
    rewrite Hloop in Hloop2. now injection Hloop2 as _ <-.
  - destruct (loop_turns_preserves codex tid maxAttempts
                (fun s => ls_exited s = true ->
                          recovered (ls_recovery s) = false ->
                          maxAttempts < ls_attempt s)
                (loop_step_left_by_bound codex tid maxAttempts)
                n (loop_entry r0))
      as (l2 & s2 & Hloop2 & Hinv).
    { cbn. discriminate. }
    rewrite Hloop in Hloop2. now injection Hloop2 as _ <-.
  - intros Hmax.
    destruct (loop_turns_preserves codex tid maxAttempts
                (loop_inv maxAttempts)) with (n := n) (s := loop_entry r0)
      as (l2 & s2 & Hloop2 & Hinv).
    { intros s1 Hs1.
      destruct (loop_step_inv codex tid maxAttempts s1 Hs1)
        as (l1 & s' & H & Hi & _). eauto. }
    { now apply loop_entry_inv. }
    rewrite Hloop in Hloop2. now injection Hloop2 as _ <-.
Qed.

(** C7: in the recovery loop, entered with [0 <= maxRecoveryAttempts],
    the loop never rejects; from one turn to the next [attempts] does not
    decrease and stays within [maxRecoveryAttempts]; [attempted], set
    before the loop, stays [true].  While the loop runs, [recovered] is
    [false] and every attempt made so far has failed; a turn that the
    bound allows sets [attempts] to its attempt number and leaves
    [recovered] true, and the loop left, exactly when that attempt
    succeeds, and otherwise moves on to the next attempt number; a turn
    that the bound forbids leaves the loop and changes nothing else.  So
    [recovered] is true only for the first successful attempt, and once
    it is true the next turn changes nothing and logs nothing: no further
    attempt runs. *)
Theorem recovery_record_monotone
  (codex : Codex) (tid : string) (maxRecoveryAttempts : Z)
  (result : EventProcessingResult) (n : nat) :
  0 <= maxRecoveryAttempts ->
  let state k :=
    state_after codex tid maxRecoveryAttempts k (loop_entry result) in
  let log k :=
    log_after codex tid maxRecoveryAttempts k (loop_entry result) in
  let succeeds a := attempt_succeeds codex tid a maxRecoveryAttempts in
  settled (loop_turns codex tid maxRecoveryAttempts n (loop_entry result))
  = inr (state n)
  /\ attempted fresh_recovery = false
  /\ attempted (ls_recovery (state n)) = true
  /\ 0 <= attempts (ls_recovery (state n))
  /\ attempts (ls_recovery (state n)) <= attempts (ls_recovery (state (S n)))
  /\ attempts (ls_recovery (state (S n))) <= maxRecoveryAttempts
  /\ (recovered (ls_recovery (state n)) = true ->
      state (S n) = state n /\ log (S n) = log n)
  /\ (recovered (ls_recovery (state n)) = true ->
      recovered (ls_recovery (state (S n))) = true)
  /\ state 0%nat = loop_entry result
  /\ (ls_exited (state n) = false ->
      recovered (ls_recovery (state n)) = false
      /\ attempts (ls_recovery (state n)) = ls_attempt (state n) - 1
      /\ forall j, 1 <= j < ls_attempt (state n) -> succeeds j = false)
  /\ (ls_exited (state n) = false ->
      ls_attempt (state n) <= maxRecoveryAttempts ->
      attempts (ls_recovery (state (S n))) = ls_attempt (state n)
      /\ recovered (ls_recovery (state (S n))) = succeeds (ls_attempt (state n))
      /\ ls_exited (state (S n)) = succeeds (ls_attempt (state n))
      /\ ls_attempt (state (S n))
         = (if succeeds (ls_attempt (state n)) then ls_attempt (state n)
            else ls_attempt (state n) + 1)
      /\ count_attempt_lines (log (S n))
         = S (count_attempt_lines (log n)))
  /\ (ls_exited (state n) = false ->
      maxRecoveryAttempts < ls_attempt (state n) ->
      ls_recovery (state (S n)) = ls_recovery (state n)
      /\ ls_exited (state (S n)) = true
      /\ log (S n) = log n)
  /\ (recovered (ls_recovery (state n)) = true ->
      ls_exited (state n) = true
      /\ succeeds (attempts (ls_recovery (state n))) = true
      /\ forall j, 1 <= j < attempts (ls_recovery (state n)) ->
           succeeds j = false).
Proof.
  intros Hmax state log succeeds. subst state log succeeds.
  unfold state_after, log_after.
  destruct (loop_states codex tid maxRecoveryAttempts result n)
    as (l1 & s1 & H1 & Hmerge & _ & _ & _ & Hinv1).
  specialize (Hinv1 Hmax).
  destruct (loop_step_inv codex tid maxRecoveryAttempts s1 Hinv1)
    as (l2 & s2 & H2 & Hinv2 & Hmono & Hfrozen).
  rewrite loop_turns_succ, H1, bind_value, H2.
  cbn [settled logged fst snd loop_turns ret].
  destruct Hinv1 as (Hatt1 & Hrange1 & Hrun1).
  destruct Hinv2 as (Hatt2 & Hrange2 & Hrun2).
  destruct Hmerge as (Hpos & Hfailed & Hkeeps & Hdone).
  assert (Hexit : recovered (ls_recovery s1) = true -> ls_exited s1 = true).
  { intros Hr. destruct (ls_exited s1); [reflexivity |].
    destruct (Hrun1 eq_refl) as (Hf & _). congruence. }
  split; [reflexivity |]. split; [reflexivity |]. split; [exact Hatt1 |].
  split; [lia |]. split; [lia |]. split; [lia |].
  split.
  { intros Hr. destruct (Hfrozen (Hexit Hr)) as (-> & ->).
    split; [reflexivity | now rewrite app_nil_r]. }
  split.
  { intros Hr. destruct (Hfrozen (Hexit Hr)) as (-> & _). exact Hr. }
  split; [reflexivity |].
  split.
  { intros Hex. destruct (Hrun1 Hex) as (Hrec & Hcount & _).
    repeat split; auto. }
  split.
  { intros Hex Hle. destruct (Hrun1 Hex) as (Hrec & _).
    destruct (loop_step_running codex tid maxRecoveryAttempts s1 Hex)
      as (l & Hs & _ & Hone).
    rewrite Hs in H2. injection H2 as <- <-.
    apply Z.leb_le in Hle. rewrite Hle. specialize (Hone Hle).
    rewrite count_attempt_lines_app, Hone.
    destruct (attempt_succeeds codex tid (ls_attempt s1) maxRecoveryAttempts);
      cbn [after_success after_failure ls_recovery ls_exited ls_attempt
             attempts recovered];
      repeat split; auto; lia. }
  split.
  { intros Hex Hgt.
    destruct (loop_step_running codex tid maxRecoveryAttempts s1 Hex)
      as (l & Hs & Hnil & _).
    rewrite Hs in H2. injection H2 as <- <-.
    apply Z.leb_gt in Hgt. rewrite Hgt. rewrite (Hnil Hgt).
    cbn [ls_recovery ls_exited]. repeat split. now rewrite app_nil_r. }
  intros Hr. pose proof (Hexit Hr) as Hex.
  split; [exact Hex |].
  destruct (Hdone Hex) as [(Hf & _) | (_ & Hn & _ & Hok & _)]; [congruence |].
  rewrite Hn. split; [exact Hok | exact Hfailed].
Qed.

Lemma recovery_record_monotone_witness :
  0 <= 2
  /\ attempts
       (ls_recovery
          (state_after second_attempt_recovers "X" 2 1
             (loop_entry (package initial_locals true))))
     <= attempts
          (ls_recovery
             (state_after second_attempt_recovers "X" 2 2
                (loop_entry (package initial_locals true))))
  /\ recovered
       (ls_recovery
          (state_after second_attempt_recovers "X" 2 1
             (loop_entry (package initial_locals true))))
     = false
  /\ recovered
       (ls_recovery
          (state_after second_attempt_recovers "X" 2 2
             (loop_entry (package initial_locals true))))
     = attempt_succeeds second_attempt_recovers "X" 2 2.
Proof.
  split; [apply Pos2Z.is_nonneg |].
  destruct (recovery_record_monotone second_attempt_recovers "X" 2
              (package initial_locals true) 1 (Pos2Z.is_nonneg 2))
    as (_ & _ & _ & _ & H & _ & _ & _ & _ & Hrunning & Hturn & _).
  split; [exact H |].
  split.
  - exact (proj1 (Hrunning eq_refl)).
  - exact (proj1 (proj2 (Hturn eq_refl (proj1 (Z.leb_le 2 2) eq_refl)))).
Defined.

(** The orchestrator once the recovery branch is entered: what it returns
    is the state in which the loop is left. *)
Lemma recovering_final
  (codex : Codex) (events : EventSource) (getThreadId : option string)
  (maxAttempts : Z) (l0 : list log_line) (r0 : EventProcessingResult)
  (tid : string) :
  processEventsWithStallDetection events = (l0, inr r0) ->
  stalled r0 = true ->
  JS.or_else (threadId r0) getThreadId = Some tid ->
  JS.truthy (Some tid) = true ->
  exists l s,
    runWithStallRecovery codex events getThreadId maxAttempts
    = (l0 ++ l
         ++ (if recovered (ls_recovery s) then [] else [LogAllRecoveryFailed]),
       inr (ls_result s, ls_recovery s))
    /\ ls_exited s = true
    /\ merge_inv codex tid maxAttempts r0 s
    /\ adopt_inv codex tid maxAttempts r0 s
    /\ attempted (ls_recovery s) = true
    /\ (recovered (ls_recovery s) = false -> maxAttempts < ls_attempt s).
Proof.
  intros H0 Hst Htid Htruthy.
  destruct (runWithStallRecovery_recovering codex events getThreadId
              maxAttempts l0 r0 tid H0 Hst Htid Htruthy)
    as (l & s & Hloop & Hex & Hrun).
  destruct (loop_states codex tid maxAttempts r0 (enough_turns maxAttempts))
    as (l2 & s2 & Hloop2 & Hmerge & Hadopt & Hatt & Hleft & _).
  rewrite Hloop in Hloop2. injection Hloop2 as <- <-.
  exists l, s. split; [exact Hrun |]. split; [exact Hex |].
  split; [exact Hmerge |]. split; [exact Hadopt |]. split; [exact Hatt |].
  intros Hrec. exact (Hleft Hex Hrec).
Qed.

(** C3 (amended): the cumulative item list is the original pass's items
    followed by the items of the one successful recovery pass, which is
    the first attempt that does not fail; the items of failed attempts
    are not merged, and without a successful attempt the result is the
    original pass's result.  Read from the inputs: after a stall with a
    usable thread id, if attempt [k] within the bound is the first one
    that succeeds, the orchestrator returns [recovered = true],
    [attempts = k] and the original items followed by those of attempt
    [k]; if every attempt within the bound fails it returns the original
    result with [recovered = false]; and without a stall or without a
    thread id it returns the original result untouched. *)
Theorem merge_order
  (codex : Codex) (events : EventSource) (getThreadId : option string)
  (maxRecoveryAttempts : Z) :
  let succeeds tid k := attempt_succeeds codex tid k maxRecoveryAttempts in
  let pass_items tid k := attempt_items codex tid k maxRecoveryAttempts in
  let pass tid k := attempt_result codex tid k maxRecoveryAttempts in
  let run :=
    runWithStallRecovery codex events getThreadId maxRecoveryAttempts in
  (forall l r recovery,
      run = (l, inr (r, recovery)) ->
      exists l0 r0,
        processEventsWithStallDetection events = (l0, inr r0)
        /\ ((recovered recovery = false /\ r = r0)
            \/ (recovered recovery = true
                /\ exists tid,
                    JS.or_else (threadId r0) getThreadId = Some tid
                    /\ 1 <= attempts recovery <= maxRecoveryAttempts
                    /\ (forall k, 1 <= k < attempts recovery ->
                          succeeds tid k = false)
                    /\ succeeds tid (attempts recovery) = true
                    /\ items r
                       = items r0 ++ pass_items tid (attempts recovery))))
  /\ (forall l0 r0,
         processEventsWithStallDetection events = (l0, inr r0) ->
         (stalled r0 && JS.truthy (JS.or_else (threadId r0) getThreadId)
          = false ->
          run = (l0, inr (r0, fresh_recovery)))
         /\ (forall tid,
                stalled r0 = true ->
                JS.or_else (threadId r0) getThreadId = Some tid ->
                JS.truthy (Some tid) = true ->
                (forall k,
                    1 <= k <= maxRecoveryAttempts ->
                    (forall j, 1 <= j < k -> succeeds tid j = false) ->
                    succeeds tid k = true ->
                    exists l recovery,
                      run
                      = (l0 ++ l,
                         inr ({| items := items r0 ++ pass_items tid k;
                                 threadId := Some tid;
                                 finalResponse := finalResponse (pass tid k);
                                 usage := usage (pass tid k);
                                 stalled := false;
                                 error := None |},
                              recovery))
                      /\ attempted recovery = true
                      /\ attempts recovery = k
                      /\ recovered recovery = true)
                /\ ((forall j, 1 <= j <= maxRecoveryAttempts ->
                       succeeds tid j = false) ->
                    exists l recovery,
                      run
                      = (l0 ++ l ++ [LogAllRecoveryFailed],
                         inr (r0, recovery))
                      /\ attempted recovery = true
                      /\ recovered recovery = false))).
Proof.
  intros succeeds pass_items pass run. subst succeeds pass_items pass run.
  split.
  - intros l r recovery Hrun.
    destruct (processEventsWithStallDetection events) as [l0 [message|r0]]
      eqn:H0.
    + rewrite (runWithStallRecovery_rejects _ _ _ _ _ _ H0) in Hrun.
      discriminate.
    + exists l0, r0. split; [reflexivity |].
      destruct (stalled r0 && JS.truthy (JS.or_else (threadId r0) getThreadId))
        eqn:Hcond.
      * apply andb_prop in Hcond. destruct Hcond as [Hst Htruthy].
        destruct (JS.or_else (threadId r0) getThreadId) as [tid|] eqn:Htid;
          [| discriminate].
        destruct (recovering_final codex events getThreadId
                    maxRecoveryAttempts l0 r0 tid H0 Hst Htid Htruthy)
          as (l' & s & Heq & Hex & Hmerge & _).
        rewrite Heq in Hrun. injection Hrun as _ <- <-.
        destruct Hmerge as (Hpos & Hfailed & _ & Hdone).
        destruct (Hdone Hex)
          as [(Hrec & Hres) | (Hrec & Hn & Hle & Hok & _ & Hit)].
        -- left. auto.
        -- right. split; [exact Hrec |]. exists tid. rewrite Hn. auto 10.
      * rewrite (runWithStallRecovery_no_recovery _ _ _ _ _ _ H0 Hcond)
          in Hrun.
        injection Hrun as _ <- <-. left. auto.
  - intros l0 r0 H0. split.
    { intros Hcond. now apply runWithStallRecovery_no_recovery. }
    intros tid Hst Htid Htruthy.
    destruct (recovering_final codex events getThreadId maxRecoveryAttempts
                l0 r0 tid H0 Hst Htid Htruthy)
      as (l & s & Heq & Hex & Hmerge & Hadopt & Hatt & Hleft).
    destruct Hmerge as (Hpos & Hfailed & _ & Hdone).
    destruct Hadopt as (_ & Hadopted).
    split.
    + intros k Hk Hbefore Hok.
      destruct (recovered (ls_recovery s)) eqn:Hrec.
      * destruct (Hdone Hex) as [(Hf & _) | (_ & Hn & Hle & Hok' & _)];
          [discriminate |].
        assert (Hk' : ls_attempt s = k).
        { destruct (Z.lt_trichotomy (ls_attempt s) k) as [Hlt | [Heqk | Hgt]].
          - rewrite (Hbefore (ls_attempt s)) in Hok' by lia. discriminate.
          - exact Heqk.
          - rewrite (Hfailed k) in Hok by lia. discriminate. }
        exists l, (ls_recovery s).
        rewrite Heq, app_nil_r, (Hadopted eq_refl), Hn, Hk'.
        cbv zeta. rewrite attempt_items_result.
        repeat split; auto.
      * specialize (Hleft eq_refl).
        rewrite (Hfailed k) in Hok by lia. discriminate.
    + intros Hall.
      destruct (recovered (ls_recovery s)) eqn:Hrec.
      * destruct (Hdone Hex) as [(Hf & _) | (_ & Hn & Hle & Hok' & _)];
          [discriminate |].
        rewrite (Hall (ls_attempt s)) in Hok' by lia. discriminate.
      * destruct (Hdone Hex) as [(_ & Hres) | (Hf & _)]; [| discriminate].
        exists l, (ls_recovery s). rewrite Heq, Hres. auto.
Qed.

Lemma merge_order_witness :
  exists l recovery,
    runWithStallRecovery first_attempt_recovers stalled_run None 2
    = ([LogThreadStarted "X"; LogItemCompleted item_A;
        LogItemCompleted item_B; LogStallDetected] ++ l,
       inr ({| items := [item_A; item_B; item_C]; threadId := Some "X";
               finalResponse := "resumed and finished"; usage := None;
               stalled := false; error := None |},
            recovery))
    /\ attempts recovery = 1
    /\ recovered recovery = true.
Proof.
  assert (Hk : 1 <= 1 <= 2) by (split; discriminate).
  assert (Hbefore : forall j, 1 <= j < 1 ->
            attempt_succeeds first_attempt_recovers "X" j 2 = false)
    by (intros j Hj; lia).
  destruct (proj1 (proj2 (proj2 (merge_order first_attempt_recovers
                                   stalled_run None 2)
                            _ _ eq_refl)
                     "X" eq_refl eq_refl eq_refl)
              1 Hk Hbefore eq_refl)
    as (l & recovery & H & _ & Ha & Hr).
  exists l, recovery. split; [exact H |]. split; [exact Ha | exact Hr].
Defined.
